(** * Spatial planning: the placement engine and its validator

    A shallow embedding of [spatial_planning/models.py],
    [spatial_planning/constraints.py] and [spatial_planning/optimizer.py].

    Numbers.  A Python [float] is modelled by the rational [Q] it
    denotes; [int] by [Z].  The sums whose rounding decides a comparison
    against an input (a position plus an extent, in the guards of the
    search, in the bounds check and in the overlap test) go through a
    parameter [fadd], the addition of floats; it is only known by the
    laws [float_addition].  Its instances here are the exact [Qplus] and
    the binary64 addition [b64_add].  The grid step [0.5] and the
    coordinates the search steps through are dyadic, so their sums are
    exact.  The one operation that has no rational counterpart,
    [v ** 0.5], is a parameter as well ([pow_half]).

    Control.  The two [while] loops of the grid search are fixpoints on a
    fuel argument; running out of fuel is the outcome [OutOfFuel], a
    Python [TypeError] is the outcome [TypeError].  [enough_fuel] computes
    a budget that always suffices. *)

From Stdlib Require Import QArith Qround Lqa ZArith List String Lia Bool.
From Stdlib Require Import Permutation Sorted.
From Stdlib Require Import PrimFloat FloatOps SpecFloat Uint63.
From stdpp Require Import base gmap strings.
Import ListNotations.

Local Open Scope Q_scope.

(** ** Outcomes of a run *)

Inductive result (A : Type) : Type :=
| Ok (a : A)
| TypeError
| OutOfFuel.

Arguments Ok {A} a.
Arguments TypeError {A}.
Arguments OutOfFuel {A}.

Definition bind {A B : Type} (m : result A) (k : A -> result B) : result B :=
  match m with
  | Ok a => k a
  | TypeError => TypeError
  | OutOfFuel => OutOfFuel
  end.

Notation "'do' v <- m ; k" := (bind m (fun v => k))
  (at level 10, v name, m at level 100, k at level 200).

(** Values of Python's [Any], as far as the validator tells them apart. *)
Inductive Any : Type :=
| ANone
| AStr (s : string)
| ANum (q : Q)
| AOther.

(** A float that may be [inf] or [-inf]. *)
Inductive xfloat : Type :=
| NegInf
| Fin (q : Q)
| PosInf.

Definition Qltb (a b : Q) : bool := negb (Qle_bool b a).
Definition Qgtb (a b : Q) : bool := Qltb b a.

(** [a < b] and [a > b] where [a] may be infinite and [b] is finite.  The
    comparison of a float with a value that is not a number raises
    [TypeError]; the callers below match on [ANum] for that. *)
Definition xlt (a : xfloat) (b : Q) : bool :=
  match a with
  | NegInf => true
  | Fin q => Qltb q b
  | PosInf => false
  end.

Definition xgt (a : xfloat) (b : Q) : bool :=
  match a with
  | NegInf => false
  | Fin q => Qltb b q
  | PosInf => true
  end.

(** ** The addition of floats *)

(** What the development uses of the addition [fadd] of floats: adding to
    zero is exact, and a sum is not below either summand when the other
    one is not negative.  Both hold of a correctly rounded addition on
    floats, rounding being monotone and the identity on floats. *)
Definition float_addition (fadd : Q -> Q -> Q) : Prop :=
  (forall b, fadd 0 b == b) /\
  (forall a b, 0 <= b -> a <= fadd a b) /\
  (forall a b, 0 <= a -> b <= fadd a b).

(** The binary64 addition on the rationals that floats denote.  An
    integer below 2^53 in size, and so a rational with such a numerator
    over a power of two, goes to the float it is. *)
Definition Z2F (z : Z) : float :=
  match z with
  | Z0 => PrimFloat.zero
  | Zpos p => PrimFloat.of_uint63 (Uint63.of_Z (Zpos p))
  | Zneg p => PrimFloat.opp (PrimFloat.of_uint63 (Uint63.of_Z (Zpos p)))
  end.

(** The float nearest to [q] (the division is correctly rounded). *)
Definition Q2F (q : Q) : float :=
  let q' := Qred q in
  PrimFloat.div (Z2F (Qnum q')) (Z2F (Zpos (Qden q'))).

(** The rational a finite float denotes. *)
Definition F2Q (f : float) : Q :=
  match Prim2SF f with
  | S754_finite s m e =>
      let v := Qred (inject_Z (Zpos m) * 2 ^ e) in
      if s then - v else v
  | _ => 0
  end.

Definition b64_add (a b : Q) : Q := F2Q (PrimFloat.add (Q2F a) (Q2F b)).

(** The float a decimal literal is read as, e.g. [b64 (201 # 100)] for
    [2.01]. *)
Definition b64 (q : Q) : Q := F2Q (Q2F q).

(** ** models.py *)

Module Dimensions.
Record t : Type := mk { width : Q; height : Q }.

Definition area (d : t) : Q := width d * height d.

(** [Field(gt=0)] on both fields. *)
Definition valid (d : t) : Prop := 0 < width d /\ 0 < height d.
End Dimensions.

Module Position.
Record t : Type := mk { x : Q; y : Q }.

(** [Field(ge=0)] on both fields. *)
Definition valid (p : t) : Prop := 0 <= x p /\ 0 <= y p.

(** Two positions denoting the same point. *)
Definition same (p q : t) : Prop := x p == x q /\ y p == y q.
End Position.

Module Room.
Record t : Type := mk {
  id : string;
  name : string;
  dimensions : Dimensions.t;
  room_type : string;
  position : option Position.t;
  priority : Z
}.

Definition area (r : t) : Q := Dimensions.area (dimensions r).

Definition valid (r : t) : Prop :=
  Dimensions.valid (dimensions r) /\
  (1 <= priority r <= 10)%Z /\
  match position r with
  | Some p => Position.valid p
  | None => True
  end.
End Room.

Module Constraint.
Record t : Type := mk {
  type : string;
  params : gmap string Any;
  description : option string
}.
End Constraint.

Module Space.
Record t : Type := mk {
  dimensions : Dimensions.t;
  rooms : list Room.t;
  constraints : list Constraint.t
}.

Definition area (s : t) : Q := Dimensions.area (dimensions s).

Definition valid (s : t) : Prop :=
  Dimensions.valid (dimensions s) /\ Forall Room.valid (rooms s).
End Space.

(** One constructor per message template of the validator; the arguments
    are the values the f-string interpolates. *)
Inductive Violation : Type :=
| ExceedsWidth (name : string) (max_x space_width : Q)
| ExceedsHeight (name : string) (max_y space_height : Q)
| Overlap (name1 name2 : string)
| MinDistance (name1 name2 : string) (dist : xfloat) (min_dist : Q)
| Adjacency (name1 name2 : string) (dist : xfloat) (max_dist : Q).

Module Layout.
Record t : Type := mk {
  space : Space.t;
  placed_rooms : list Room.t;
  score : Q;
  violations : list Violation;
  metadata : gmap string Any
}.

Definition is_valid (l : t) : bool :=
  Nat.eqb (List.length (violations l)) 0.
End Layout.

(** [Room(id=room.id, ..., position=position)]: a new room that differs
    from [room] in its position only. *)
Definition with_position (room : Room.t) (position : Position.t) : Room.t :=
  Room.mk (Room.id room) (Room.name room) (Room.dimensions room)
          (Room.room_type room) (Some position) (Room.priority room).

(** ** constraints.py *)

Section Overlap.
(** [a + b] on floats. *)
Variable fadd : Q -> Q -> Q.

(** The rectangle test shared by [_rooms_overlap] and [_has_overlap]. *)
Definition rects_overlap (p1 : Position.t) (d1 : Dimensions.t)
                         (p2 : Position.t) (d2 : Dimensions.t) : bool :=
  let r1_x1 := Position.x p1 in
  let r1_y1 := Position.y p1 in
  let r1_x2 := fadd r1_x1 (Dimensions.width d1) in
  let r1_y2 := fadd r1_y1 (Dimensions.height d1) in
  let r2_x1 := Position.x p2 in
  let r2_y1 := Position.y p2 in
  let r2_x2 := fadd r2_x1 (Dimensions.width d2) in
  let r2_y2 := fadd r2_y1 (Dimensions.height d2) in
  negb (Qle_bool r1_x2 r2_x1 || Qle_bool r2_x2 r1_x1 ||
        Qle_bool r1_y2 r2_y1 || Qle_bool r2_y2 r1_y1).

Definition _rooms_overlap (room1 room2 : Room.t) : bool :=
  match Room.position room1, Room.position room2 with
  | Some p1, Some p2 =>
      rects_overlap p1 (Room.dimensions room1) p2 (Room.dimensions room2)
  | _, _ => false
  end.
End Overlap.

(** [r.id == v] for a value [v] fetched from a params dict. *)
Definition id_is (v : option Any) (r : Room.t) : bool :=
  match v with
  | Some (AStr s) => String.eqb (Room.id r) s
  | _ => false
  end.

Section ConstraintValidator.
(** [a + b] on floats. *)
Variable fadd : Q -> Q -> Q.
(** [v ** 0.5] on floats. *)
Variable pow_half : Q -> Q.
(** [self.space] *)
Variable space : Space.t.

Definition bounds_of_room (room : Room.t) : list Violation :=
  match Room.position room with
  | None => []
  | Some p =>
      let max_x := fadd (Position.x p) (Dimensions.width (Room.dimensions room)) in
      let max_y := fadd (Position.y p) (Dimensions.height (Room.dimensions room)) in
      let space_w := Dimensions.width (Space.dimensions space) in
      let space_h := Dimensions.height (Space.dimensions space) in
      (if Qgtb max_x space_w
       then [ExceedsWidth (Room.name room) max_x space_w] else []) ++
      (if Qgtb max_y space_h
       then [ExceedsHeight (Room.name room) max_y space_h] else [])
  end.

Fixpoint _check_bounds (rooms : list Room.t) : list Violation :=
  match rooms with
  | [] => []
  | room :: rest => bounds_of_room room ++ _check_bounds rest
  end.

(** The inner loop over [rooms[i + 1:]]. *)
Fixpoint overlaps_with (room1 : Room.t) (later : list Room.t)
  : list Violation :=
  match later with
  | [] => []
  | room2 :: rest =>
      match Room.position room2 with
      | None => overlaps_with room1 rest
      | Some _ =>
          if _rooms_overlap fadd room1 room2
          then Overlap (Room.name room1) (Room.name room2)
               :: overlaps_with room1 rest
          else overlaps_with room1 rest
      end
  end.

Fixpoint _check_overlaps (rooms : list Room.t) : list Violation :=
  match rooms with
  | [] => []
  | room1 :: later =>
      match Room.position room1 with
      | None => _check_overlaps later
      | Some _ => overlaps_with room1 later ++ _check_overlaps later
      end
  end.

Definition _calculate_distance (room1 room2 : Room.t) : xfloat :=
  match Room.position room1, Room.position room2 with
  | Some p1, Some p2 =>
      let r1_cx := Position.x p1 + Dimensions.width (Room.dimensions room1) / 2 in
      let r1_cy := Position.y p1 + Dimensions.height (Room.dimensions room1) / 2 in
      let r2_cx := Position.x p2 + Dimensions.width (Room.dimensions room2) / 2 in
      let r2_cy := Position.y p2 + Dimensions.height (Room.dimensions room2) / 2 in
      Fin (pow_half ((r1_cx - r2_cx) ^ 2 + (r1_cy - r2_cy) ^ 2))
  | _, _ => PosInf
  end.

Definition _check_min_distance (rooms : list Room.t) (constraint : Constraint.t)
  : result (list Violation) :=
  let room1_id := Constraint.params constraint !! "room1" in
  let room2_id := Constraint.params constraint !! "room2" in
  let min_dist := default (ANum 0) (Constraint.params constraint !! "distance") in
  let room1 := List.find (id_is room1_id) rooms in
  let room2 := List.find (id_is room2_id) rooms in
  match room1, room2 with
  | Some r1, Some r2 =>
      match Room.position r1, Room.position r2 with
      | Some _, Some _ =>
          let dist := _calculate_distance r1 r2 in
          match min_dist with
          | ANum d =>
              Ok (if xlt dist d
                  then [MinDistance (Room.name r1) (Room.name r2) dist d]
                  else [])
          | _ => TypeError
          end
      | _, _ => Ok []
      end
  | _, _ => Ok []
  end.

Definition _check_adjacency (rooms : list Room.t) (constraint : Constraint.t)
  : result (list Violation) :=
  let room1_id := Constraint.params constraint !! "room1" in
  let room2_id := Constraint.params constraint !! "room2" in
  let max_dist := default (ANum 1) (Constraint.params constraint !! "max_distance") in
  let room1 := List.find (id_is room1_id) rooms in
  let room2 := List.find (id_is room2_id) rooms in
  match room1, room2 with
  | Some r1, Some r2 =>
      match Room.position r1, Room.position r2 with
      | Some _, Some _ =>
          let dist := _calculate_distance r1 r2 in
          match max_dist with
          | ANum d =>
              Ok (if xgt dist d
                  then [Adjacency (Room.name r1) (Room.name r2) dist d]
                  else [])
          | _ => TypeError
          end
      | _, _ => Ok []
      end
  | _, _ => Ok []
  end.

Definition check_constraint (rooms : list Room.t) (constraint : Constraint.t)
  : result (list Violation) :=
  if String.eqb (Constraint.type constraint) "min_distance"
  then _check_min_distance rooms constraint
  else if String.eqb (Constraint.type constraint) "adjacency"
  then _check_adjacency rooms constraint
  else Ok [].

Fixpoint custom_loop (rooms : list Room.t) (cs : list Constraint.t)
                     (violations : list Violation) : result (list Violation) :=
  match cs with
  | [] => Ok violations
  | constraint :: rest =>
      do vs <- check_constraint rooms constraint;
      custom_loop rooms rest (violations ++ vs)
  end.

Definition _check_custom_constraints (rooms : list Room.t)
  : result (list Violation) :=
  custom_loop rooms (Space.constraints space) [].

Definition validate_layout (rooms : list Room.t) : result (list Violation) :=
  let violations := [] ++ _check_bounds rooms in
  let violations := violations ++ _check_overlaps rooms in
  do custom <- _check_custom_constraints rooms;
  Ok (violations ++ custom).
End ConstraintValidator.

(** ** optimizer.py *)

Definition grid_step : Q := 1 # 2.

(** [sorted(l, key=key, reverse=True)]: the stable sort into descending
    key order, as an insertion sort from the right. *)
Fixpoint insert_desc {A : Type} (key : A -> Z) (a : A) (l : list A) : list A :=
  match l with
  | [] => [a]
  | b :: l' => if (key a <? key b)%Z then b :: insert_desc key a l' else a :: l
  end.

Fixpoint sorted_desc {A : Type} (key : A -> Z) (l : list A) : list A :=
  match l with
  | [] => []
  | a :: l' => insert_desc key a (sorted_desc key l')
  end.

(** [sum(...)] and [len(...)] as floats. *)
Definition Qsum (l : list Q) : Q := fold_left Qplus l 0.
Definition Qlen {A : Type} (l : list A) : Q := inject_Z (Z.of_nat (List.length l)).

Definition _score_position (position : Position.t) : Q :=
  - (Position.x position + Position.y position).

Section Collision.
(** [a + b] on floats. *)
Variable fadd : Q -> Q -> Q.

Fixpoint _has_overlap_loop (p : Position.t) (room : Room.t)
                           (placed_rooms : list Room.t) : bool :=
  match placed_rooms with
  | [] => false
  | placed :: rest =>
      match Room.position placed with
      | None => _has_overlap_loop p room rest
      | Some pp =>
          if rects_overlap fadd p (Room.dimensions room) pp (Room.dimensions placed)
          then true
          else _has_overlap_loop p room rest
      end
  end.

Definition _has_overlap (room : Room.t) (placed_rooms : list Room.t) : bool :=
  match Room.position room with
  | None => false
  | Some p => _has_overlap_loop p room placed_rooms
  end.
End Collision.

Section LayoutOptimizer.
(** [a + b] on floats. *)
Variable fadd : Q -> Q -> Q.
(** [v ** 0.5], used by [self.validator] only. *)
Variable pow_half : Q -> Q.
(** [self.space] *)
Variable space : Space.t.

(** The pair [(best_position, best_score)] the search carries along;
    [best_score] starts at [-inf]. *)
Definition search_state : Type := (option Position.t * xfloat)%type.

(** The body of the inner loop at the candidate [(x, y)];
    [pos_score > best_score] is [xlt best_score pos_score]. *)
Definition try_position (room : Room.t) (placed_rooms : list Room.t)
                        (x y : Q) (st : search_state) : search_state :=
  let position := Position.mk x y in
  let temp_room := with_position room position in
  if negb (_has_overlap fadd temp_room placed_rooms) then
    let pos_score := _score_position position in
    if xlt (snd st) pos_score then (Some position, Fin pos_score) else st
  else st.

(** [while x + room.dimensions.width <= self.space.dimensions.width] *)
Fixpoint scan_x (fuel : nat) (room : Room.t) (placed_rooms : list Room.t)
                (x y : Q) (st : search_state) : result search_state :=
  match fuel with
  | O => OutOfFuel
  | S fuel' =>
      if Qle_bool (fadd x (Dimensions.width (Room.dimensions room)))
                  (Dimensions.width (Space.dimensions space))
      then scan_x fuel' room placed_rooms (x + grid_step) y
                  (try_position room placed_rooms x y st)
      else Ok st
  end.

(** [while y + room.dimensions.height <= self.space.dimensions.height];
    every run of the inner loop gets the budget [fuel_x]. *)
Fixpoint scan_y (fuel_x fuel : nat) (room : Room.t) (placed_rooms : list Room.t)
                (y : Q) (st : search_state) : result search_state :=
  match fuel with
  | O => OutOfFuel
  | S fuel' =>
      if Qle_bool (fadd y (Dimensions.height (Room.dimensions room)))
                  (Dimensions.height (Space.dimensions space))
      then do st' <- scan_x fuel_x room placed_rooms 0 y st;
           scan_y fuel_x fuel' room placed_rooms (y + grid_step) st'
      else Ok st
  end.

Definition _find_best_position (fuel : nat) (room : Room.t)
                               (placed_rooms : list Room.t)
  : result (option Position.t) :=
  do st <- scan_y fuel fuel room placed_rooms 0 (None, NegInf);
  Ok (fst st).

(** The [for room in sorted_rooms] loop. *)
Fixpoint place_rooms (fuel : nat) (sorted_rooms placed_rooms : list Room.t)
  : result (list Room.t) :=
  match sorted_rooms with
  | [] => Ok placed_rooms
  | room :: rest =>
      do position <- _find_best_position fuel room placed_rooms;
      match position with
      | Some p => place_rooms fuel rest (placed_rooms ++ [with_position room p])
      | None => place_rooms fuel rest placed_rooms
      end
  end.

Definition _calculate_score (placed_rooms : list Room.t)
                            (violations : list Violation) : Q :=
  let score := 0 in
  let placement_ratio :=
    match Space.rooms space with
    | [] => 0
    | _ => Qlen placed_rooms / Qlen (Space.rooms space)
    end in
  let score := score + placement_ratio * 100 in
  let score := score - Qlen violations * 10 in
  let utilization :=
    if Qgtb (Space.area space) 0
    then Qsum (map Room.area placed_rooms) / Space.area space
    else 0 in
  let score :=
    if Qle_bool (6 # 10) utilization && Qle_bool utilization (8 # 10)
    then score + 20
    else if Qgtb utilization (8 # 10) then score + 10 else score in
  match placed_rooms with
  | [] => score
  | _ =>
      let avg_distance :=
        Qsum (flat_map (fun r => match Room.position r with
                                 | Some p => [Position.x p + Position.y p]
                                 | None => []
                                 end) placed_rooms)
        / Qlen placed_rooms in
      let max_distance := Dimensions.width (Space.dimensions space)
                          + Dimensions.height (Space.dimensions space) in
      let compactness := 1 - (avg_distance / max_distance) in
      score + compactness * 10
  end.

Definition make_metadata (placed_rooms : list Room.t) : gmap string Any :=
  {[ "total_rooms" := ANum (Qlen (Space.rooms space));
     "placed_rooms" := ANum (Qlen placed_rooms);
     "placement_rate" := ANum (match Space.rooms space with
                               | [] => 0
                               | _ => Qlen placed_rooms / Qlen (Space.rooms space)
                               end);
     "algorithm" := AStr "greedy_priority" ]}.

Definition generate_layout (fuel : nat) : result Layout.t :=
  let sorted_rooms := sorted_desc Room.priority (Space.rooms space) in
  do placed_rooms <- place_rooms fuel sorted_rooms [];
  do violations <- validate_layout fadd pow_half space placed_rooms;
  let score := _calculate_score placed_rooms violations in
  let metadata := make_metadata placed_rooms in
  Ok (Layout.mk space placed_rooms score violations metadata).
End LayoutOptimizer.

(** ** The grid, its candidates and the fuel they need *)

(** The values a loop variable takes: it starts at [c], advances by
    [grid_step], and stays while [c + extent <= limit], the sum being the
    one of floats. *)
Fixpoint grid_line (fadd : Q -> Q -> Q) (fuel : nat) (extent limit c : Q)
  : list Q :=
  match fuel with
  | O => []
  | S fuel' =>
      if Qle_bool (fadd c extent) limit
      then c :: grid_line fadd fuel' extent limit (c + grid_step)
      else []
  end.

(** The positions a search with the given fuel looks at, in scan order
    (row-major): for each [y] of the outer loop, every [x] of the inner
    loop.  The search is the fold of the loop body over this list
    ([_find_best_position_scanned]). *)
Definition scanned (fadd : Q -> Q -> Q) (fuel : nat)
                   (space : Space.t) (room : Room.t) : list Position.t :=
  let w := Dimensions.width (Room.dimensions room) in
  let h := Dimensions.height (Room.dimensions room) in
  let W := Dimensions.width (Space.dimensions space) in
  let H := Dimensions.height (Space.dimensions space) in
  flat_map
    (fun y => map (fun x => Position.mk x y) (grid_line fadd fuel w W 0))
    (grid_line fadd fuel h H 0).

(** A loop whose guard is [fadd c extent <= limit] stops once [c] has
    passed [limit]. *)
Definition stops (fadd : Q -> Q -> Q) (extent limit : Q) : Prop :=
  forall c, fadd c extent <= limit -> c <= limit.

(** [fuel] lets a loop that stands at [c] and stops past [limit] run to
    its end. *)
Definition covers (fuel : nat) (limit c : Q) : Prop :=
  (1 <= fuel)%nat /\
  limit - c < inject_Z (Z.of_nat fuel - 1) * grid_step.

Definition fuel_for (limit : Q) : nat :=
  (Z.to_nat (Qfloor (limit / grid_step)) + 2)%nat.

(** The fuel that suffices for the search of any room of positive size:
    its loops stop once [x] has passed the width and [y] the height of
    the space. *)
Definition room_fuel (space : Space.t) (room : Room.t) : nat :=
  Nat.max (fuel_for (Dimensions.width (Space.dimensions space)))
          (fuel_for (Dimensions.height (Space.dimensions space))).

Definition enough_fuel (space : Space.t) : nat :=
  fold_right Nat.max 0%nat (map (room_fuel space) (Space.rooms space)).

(** The candidate positions of a room: what a search with enough fuel
    looks at. *)
Definition candidates (fadd : Q -> Q -> Q)
                      (space : Space.t) (room : Room.t) : list Position.t :=
  scanned fadd (room_fuel space room) space room.

(** A candidate is collision-free when the positioned copy of the room
    overlaps none of the rooms placed so far. *)
Definition collision_free (fadd : Q -> Q -> Q)
                          (room : Room.t) (placed_rooms : list Room.t)
                          (p : Position.t) : bool :=
  negb (_has_overlap fadd (with_position room p) placed_rooms).

Definition free_candidates (fadd : Q -> Q -> Q)
                           (space : Space.t) (room : Room.t)
                           (placed_rooms : list Room.t) : list Position.t :=
  List.filter (collision_free fadd room placed_rooms) (candidates fadd space room).

Definition first_free (fadd : Q -> Q -> Q)
                      (space : Space.t) (room : Room.t)
                      (placed_rooms : list Room.t) : option Position.t :=
  hd_error (free_candidates fadd space room placed_rooms).

(** The bound a constraint compares with is a number, or absent (then
    the default is used): the comparison cannot raise [TypeError]. *)
Definition numeric (v : option Any) : Prop :=
  match v with
  | None | Some (ANum _) => True
  | Some _ => False
  end.

Definition constraint_typed (c : Constraint.t) : Prop :=
  (String.eqb (Constraint.type c) "min_distance" = true ->
   numeric (Constraint.params c !! "distance")) /\
  (String.eqb (Constraint.type c) "adjacency" = true ->
   numeric (Constraint.params c !! "max_distance")).

(** The search state is the best of the candidates [seen] so far: either
    none was collision-free, or it holds the earliest collision-free
    candidate of maximal score. *)
Definition best_of (fadd : Q -> Q -> Q)
                   (room : Room.t) (placed_rooms : list Room.t)
                   (seen : list Position.t) (st : option Position.t * xfloat)
  : Prop :=
  match st with
  | (None, NegInf) =>
      forall c, In c seen -> collision_free fadd room placed_rooms c = false
  | (Some p, Fin s) =>
      s = _score_position p /\
      collision_free fadd room placed_rooms p = true /\
      exists before after,
        seen = before ++ p :: after /\
        (forall c, In c before -> collision_free fadd room placed_rooms c = true ->
                   _score_position c < _score_position p) /\
        (forall c, In c after -> collision_free fadd room placed_rooms c = true ->
                   _score_position c <= _score_position p)
  | _ => False
  end.

(** The rectangle of a room lies within [[0, width] x [0, height]] of the
    space: no coordinate is negative, and [x + width] and [y + height],
    the sums of floats that the code computes, do not pass the width and
    the height of the space. *)
Definition inside (fadd : Q -> Q -> Q) (space : Space.t) (r : Room.t) : Prop :=
  exists p,
    Room.position r = Some p /\
    0 <= Position.x p /\ 0 <= Position.y p /\
    fadd (Position.x p) (Dimensions.width (Room.dimensions r))
      <= Dimensions.width (Space.dimensions space) /\
    fadd (Position.y p) (Dimensions.height (Room.dimensions r))
      <= Dimensions.height (Space.dimensions space).

(** [r] is a placed copy of the template [t]: a position was added and
    nothing else changed. *)
Definition placed_copy_of (t r : Room.t) : Prop :=
  Room.id r = Room.id t /\
  Room.name r = Room.name t /\
  Room.dimensions r = Room.dimensions t /\
  Room.room_type r = Room.room_type t /\
  Room.priority r = Room.priority t /\
  exists p, Room.position r = Some p.

(** No two rooms at different indices of the list overlap. *)
Definition pairwise_disjoint (fadd : Q -> Q -> Q) (rooms : list Room.t) : Prop :=
  forall (i j : nat) (a b : Room.t),
    i <> j -> nth_error rooms i = Some a -> nth_error rooms j = Some b ->
    _rooms_overlap fadd a b = false.

(** The reading of the search that the first collision-free candidate of
    the scan is already the best one: it has the maximal score among the
    collision-free candidates, and it is what the search returns. *)
Definition first_free_is_best (fadd : Q -> Q -> Q)
                              (space : Space.t) (room : Room.t)
                              (placed_rooms : list Room.t) : Prop :=
  forall q,
    first_free fadd space room placed_rooms = Some q ->
    (forall c, In c (free_candidates fadd space room placed_rooms) ->
               _score_position c <= _score_position q) /\
    (forall fuel r,
        _find_best_position fadd space fuel room placed_rooms = Ok r -> r = Some q).

(** *** Concrete inputs *)

(** The scenario of the test suite: a 10 x 8 space and three rooms. *)
Definition demo_space : Space.t :=
  Space.mk (Dimensions.mk 10 8)
    [ Room.mk "room_0" "Living Room" (Dimensions.mk 5 4) "general" None 9;
      Room.mk "room_1" "Bedroom" (Dimensions.mk 4 3) "general" None 8;
      Room.mk "room_2" "Kitchen" (Dimensions.mk 3 3) "general" None 7 ]
    [].

(** The search for the second room of [demo_space], once the first one
    stands at the origin. *)
Definition living_room_placed : Room.t :=
  Room.mk "room_0" "Living Room" (Dimensions.mk 5 4) "general"
          (Some (Position.mk 0 0)) 9.

Definition bedroom : Room.t :=
  Room.mk "room_1" "Bedroom" (Dimensions.mk 4 3) "general" None 8.

(** Two 6 x 6 rooms in a 10 x 10 space: only one of them fits; the one of
    low priority is listed first. *)
Definition priority_space : Space.t :=
  Space.mk (Dimensions.mk 10 10)
    [ Room.mk "b" "B" (Dimensions.mk 6 6) "general" None 1;
      Room.mk "a" "A" (Dimensions.mk 6 6) "general" None 10 ]
    [].

(** A room that fills the 10 x 8 space exactly. *)
Definition full_space : Space.t := Space.mk (Dimensions.mk 10 8) [] [].

Definition full_room : Room.t :=
  Room.mk "r1" "Room 1" (Dimensions.mk 10 8) "general"
          (Some (Position.mk 0 0)) 5.

(** Two 5 x 4 rooms that share the line [x = 5]. *)
Definition left_room : Room.t :=
  Room.mk "r1" "Room 1" (Dimensions.mk 5 4) "general"
          (Some (Position.mk 0 0)) 5.

Definition right_room : Room.t :=
  Room.mk "r2" "Room 2" (Dimensions.mk 5 4) "general"
          (Some (Position.mk 5 0)) 5.

(** Two 3 x 3 rooms whose centres are 5 apart, and one without position. *)
Definition near_room : Room.t :=
  Room.mk "r1" "Room 1" (Dimensions.mk 3 3) "general"
          (Some (Position.mk 0 0)) 5.

Definition far_room : Room.t :=
  Room.mk "r2" "Room 2" (Dimensions.mk 3 3) "general"
          (Some (Position.mk 3 4)) 5.

Definition distance_constraint : Constraint.t :=
  Constraint.mk "min_distance"
    {[ "room1" := AStr "r1"; "room2" := AStr "r2"; "distance" := ANum 6 ]}
    None.

(** A constraint that names a room nobody has, with a bound that is not
    a number. *)
Definition dangling_constraint : Constraint.t :=
  Constraint.mk "min_distance"
    {[ "room1" := AStr "r1"; "room2" := AStr "nowhere";
       "distance" := AStr "far" ]}
    None.

(** A stand-in for [v ** 0.5] that is exact on perfect squares. *)
Definition sqrt_floor : Q -> Q := fun v => inject_Z (Z.sqrt (Qfloor v)).

(** The identity stands in for [v ** 0.5] where no distance is computed. *)
Definition no_pow : Q -> Q := fun v => v.

(** *** Further notions for the validator and the optimizer *)

(** [room.position] is set ([if room.position] in the source). *)
Definition positioned (r : Room.t) : bool :=
  match Room.position r with
  | Some _ => true
  | None => false
  end.

(** The far corner of a positioned room, as the code computes it, does
    not pass the far boundaries of the space; a room without position
    satisfies this vacuously. *)
Definition within_far_bounds (fadd : Q -> Q -> Q)
                             (space : Space.t) (r : Room.t) : Prop :=
  forall p,
    Room.position r = Some p ->
    fadd (Position.x p) (Dimensions.width (Room.dimensions r))
      <= Dimensions.width (Space.dimensions space) /\
    fadd (Position.y p) (Dimensions.height (Room.dimensions r))
      <= Dimensions.height (Space.dimensions space).

(** The messages of the custom constraints. *)
Definition is_custom (v : Violation) : Prop :=
  match v with
  | MinDistance _ _ _ _ | Adjacency _ _ _ _ => True
  | _ => False
  end.

(** The constraint is of one of the two types the validator knows. *)
Definition recognized (c : Constraint.t) : bool :=
  String.eqb (Constraint.type c) "min_distance"
  || String.eqb (Constraint.type c) "adjacency".

(** A value that is present and is not a number. *)
Definition not_a_number (v : option Any) : Prop :=
  match v with
  | Some (ANum _) | None => False
  | Some _ => True
  end.

(** The room fits in the space. *)
Definition fits (space : Space.t) (r : Room.t) : Prop :=
  Dimensions.width (Room.dimensions r)
    <= Dimensions.width (Space.dimensions space) /\
  Dimensions.height (Room.dimensions r)
    <= Dimensions.height (Space.dimensions space).

(** A coordinate on the search grid: a multiple of [grid_step]. *)
Definition on_grid (q : Q) : Prop :=
  exists k : nat, q == inject_Z (Z.of_nat k) * grid_step.

(** *** Concrete inputs for the validator *)

(** A constraint of a type the validator does not know. *)
Definition zoning_constraint : Constraint.t :=
  Constraint.mk "zoning" {[ "room1" := AStr "r1" ]} None.

(** A [min_distance] constraint that names no distance. *)
Definition bare_constraint : Constraint.t :=
  Constraint.mk "min_distance"
    {[ "room1" := AStr "r1"; "room2" := AStr "r2" ]} None.

(** A 10 x 8 space with a [min_distance] constraint of 6 between "r1" and
    "r2" and a constraint of unknown type. *)
Definition constrained_space : Space.t :=
  Space.mk (Dimensions.mk 10 8) [] [zoning_constraint; distance_constraint].

Definition zoned_space : Space.t :=
  Space.mk (Dimensions.mk 10 8) [] [zoning_constraint].

(** [len(placed_rooms) / len(self.space.rooms) if self.space.rooms else 0],
    as the score and the metadata compute it. *)
Definition placement_ratio (space : Space.t) (placed_rooms : list Room.t) : Q :=
  match Space.rooms space with
  | [] => 0
  | _ => Qlen placed_rooms / Qlen (Space.rooms space)
  end.

(** A 4 x 4 space asked to hold a 6 x 2 room and a 2 x 2 room. *)
Definition tight_space : Space.t :=
  Space.mk (Dimensions.mk 4 4)
    [ Room.mk "wide" "Wide" (Dimensions.mk 6 2) "general" None 9;
      Room.mk "small" "Small" (Dimensions.mk 2 2) "general" None 5 ]
    [].

(** A space that asks for no room but carries a constraint whose bound
    is not a number. *)
Definition empty_space : Space.t :=
  Space.mk (Dimensions.mk 10 8) [] [dangling_constraint].

(** *** Inputs on which the rounding of a sum decides *)

(** A 2.01 x 1 space asked to hold four 0.5 x 1 rooms and a 0.01 x 1
    sliver; the numbers are the floats the literals are read as. *)
Definition sliver_space : Space.t :=
  Space.mk (Dimensions.mk (b64 (201 # 100)) 1)
    [ Room.mk "r0" "R0" (Dimensions.mk (1 # 2) 1) "general" None 9;
      Room.mk "r1" "R1" (Dimensions.mk (1 # 2) 1) "general" None 8;
      Room.mk "r2" "R2" (Dimensions.mk (1 # 2) 1) "general" None 7;
      Room.mk "r3" "R3" (Dimensions.mk (1 # 2) 1) "general" None 6;
      Room.mk "r4" "R4" (Dimensions.mk (b64 (1 # 100)) 1) "general" None 5 ]
    [].

(** The sliver at [x = 2.0] and a room that starts at [x = 2.01]. *)
Definition sliver_room : Room.t :=
  Room.mk "r4" "R4" (Dimensions.mk (b64 (1 # 100)) 1) "general"
          (Some (Position.mk 2 0)) 5.

Definition beside_sliver : Room.t :=
  Room.mk "r5" "R5" (Dimensions.mk 1 1) "general"
          (Some (Position.mk (b64 (201 # 100)) 0)) 5.

(** ** agent.py *)

(** What a call of the agent ends in: a layout, the [ValueError] of the
    agent itself, or what the optimizer ended in. *)
Inductive agent_outcome : Type :=
| Returned (layout : Layout.t)
| ValueError
| RaisedTypeError
| RanOutOfFuel.

Module SpatialPlanningAgent.
Record t : Type := mk {
  current_space : option Space.t;
  current_layout : option Layout.t
}.

(** [__init__] *)
Definition init : t := mk None None.

(** [generate_layout(self, space=None)]: the outcome and the agent after
    the call.  An exception leaves the agent as it was, since
    [self.current_layout] is assigned after the optimizer has returned. *)
Definition generate_layout (fadd : Q -> Q -> Q) (pow_half : Q -> Q)
                           (fuel : nat)
                           (self : t) (space : option Space.t)
  : agent_outcome * t :=
  let space := match space with
               | None => current_space self
               | Some s => Some s
               end in
  match space with
  | None => (ValueError, self)
  | Some s =>
      match generate_layout fadd pow_half s fuel with
      | Ok layout => (Returned layout, mk (current_space self) (Some layout))
      | TypeError => (RaisedTypeError, self)
      | OutOfFuel => (RanOutOfFuel, self)
      end
  end.
End SpatialPlanningAgent.

(** ** Facts *)

Section WithAddition.
(** The addition of floats; nothing is assumed of it unless a statement
    says so. *)
Variable fadd : Q -> Q -> Q.

Lemma Qltb_lt (a b : Q) : Qltb a b = true <-> a < b.
Proof.
  unfold Qltb. rewrite negb_true_iff, <- not_true_iff_false, Qle_bool_iff.
  split; [apply Qnot_le_lt | apply Qlt_not_le].
Qed.

Lemma Qltb_ge (a b : Q) : Qltb a b = false <-> b <= a.
Proof.
  unfold Qltb. rewrite negb_false_iff. apply Qle_bool_iff.
Qed.

Lemma bind_Ok {A B : Type} (m : result A) (k : A -> result B) (b : B) :
  bind m k = Ok b -> exists a, m = Ok a /\ k a = Ok b.
Proof. destruct m; simpl; intros H; try discriminate. eauto. Qed.

(** *** The laws of the addition *)

Lemma float_addition_exact : float_addition Qplus.
Proof. repeat split; intros; lra. Qed.

Lemma float_addition_stops (e l : Q) :
  float_addition fadd -> 0 <= e -> stops fadd e l.
Proof.
  intros (_ & Hge & _) He c Hc. specialize (Hge c e He). lra.
Qed.

(** *** Fuel *)

Lemma covers_mono (f f' : nat) (l c : Q) :
  (f <= f')%nat -> covers f l c -> covers f' l c.
Proof.
  unfold covers, grid_step. intros Hle [Hpos H]. split; [lia |].
  assert (inject_Z (Z.of_nat f - 1) <= inject_Z (Z.of_nat f' - 1)) as Hq.
  { rewrite <- Zle_Qle. lia. }
  revert H Hq.
  generalize (inject_Z (Z.of_nat f - 1)), (inject_Z (Z.of_nat f' - 1)).
  intros; lra.
Qed.

Lemma covers_step (f : nat) (l c : Q) :
  covers (S f) l c -> c <= l -> covers f l (c + grid_step).
Proof.
  unfold covers, grid_step. intros [_ H] Hg.
  destruct f as [|f].
  - exfalso. change (inject_Z (Z.of_nat 1 - 1)) with 0 in H. lra.
  - split; [lia |].
    replace (Z.of_nat (S (S f)) - 1)%Z with (Z.of_nat (S f) - 1 + 1)%Z in H by lia.
    rewrite inject_Z_plus in H. change (inject_Z 1) with 1 in H. revert H.
    generalize (inject_Z (Z.of_nat (S f) - 1)). intros; lra.
Qed.

Lemma fuel_for_covers (l : Q) : covers (fuel_for l) l 0.
Proof.
  unfold covers, fuel_for, grid_step. split; [lia |].
  set (q := l / (1 # 2)).
  assert (l == q * (1 # 2)) as Hq by (unfold q; field).
  pose proof (Qlt_floor q) as Hfl.
  assert (inject_Z (Qfloor q + 1)
          <= inject_Z (Z.of_nat (Z.to_nat (Qfloor q) + 2) - 1)) as Hz.
  { rewrite <- Zle_Qle. lia. }
  revert Hfl Hz.
  generalize (inject_Z (Qfloor q + 1)),
             (inject_Z (Z.of_nat (Z.to_nat (Qfloor q) + 2) - 1)).
  clearbody q. intros; lra.
Qed.

(** With enough fuel the trace of a loop variable no longer depends on
    the fuel. *)
Lemma grid_line_fuel (f f' : nat) (e l c : Q) :
  stops fadd e l -> covers f l c -> (f <= f')%nat ->
  grid_line fadd f' e l c = grid_line fadd f e l c.
Proof.
  intros Hstop. revert f' c. induction f as [|f IH]; intros f' c Hc Hle.
  - destruct Hc; lia.
  - destruct f' as [|f']; [lia |]. simpl.
    destruct (Qle_bool (fadd c e) l) eqn:Hg; [| reflexivity].
    f_equal. apply IH; [| lia].
    apply covers_step; [assumption | apply Hstop; now apply Qle_bool_iff].
Qed.

Section Search.
Variable space : Space.t.
Variable room : Room.t.
Variable placed_rooms : list Room.t.

Local Abbreviation w := (Dimensions.width (Room.dimensions room)).
Local Abbreviation h := (Dimensions.height (Room.dimensions room)).
Local Abbreviation W := (Dimensions.width (Space.dimensions space)).
Local Abbreviation H := (Dimensions.height (Space.dimensions space)).
Local Abbreviation visit :=
  (fun (st : search_state) (p : Position.t) =>
     try_position fadd room placed_rooms (Position.x p) (Position.y p) st).

(** *** The loops as folds over their traces *)

Lemma scan_x_trace (fuel : nat) (x y : Q) (st r : search_state) :
  scan_x fadd space fuel room placed_rooms x y st = Ok r ->
  r = fold_left visit
                (map (fun x' => Position.mk x' y) (grid_line fadd fuel w W x)) st.
Proof.
  revert x st. induction fuel as [|f IH]; intros x st; simpl.
  - discriminate.
  - destruct (Qle_bool _ _); [| now intros [= <-]].
    simpl. apply IH.
Qed.

Lemma scan_y_trace (fuel_x fuel : nat) (y : Q) (st r : search_state) :
  scan_y fadd space fuel_x fuel room placed_rooms y st = Ok r ->
  r = fold_left visit
        (flat_map
           (fun y' => map (fun x' => Position.mk x' y') (grid_line fadd fuel_x w W 0))
           (grid_line fadd fuel h H y))
        st.
Proof.
  revert y st. induction fuel as [|f IH]; intros y st; simpl.
  - discriminate.
  - destruct (Qle_bool _ _); [| now intros [= <-]].
    intros Hr. apply bind_Ok in Hr as (st' & Hx & Hy).
    apply scan_x_trace in Hx. subst st'. apply IH in Hy.
    simpl. now rewrite fold_left_app.
Qed.

(** Whatever fuel the search returned with, it returned the fold of the
    loop body over what it has scanned. *)
Lemma _find_best_position_scanned (fuel : nat) (r : option Position.t) :
  _find_best_position fadd space fuel room placed_rooms = Ok r ->
  r = fst (fold_left visit (scanned fadd fuel space room) (None, NegInf)).
Proof.
  unfold _find_best_position. intros Hr.
  apply bind_Ok in Hr as (st & Hsy & [= <-]).
  apply scan_y_trace in Hsy. now subst st.
Qed.

(** *** With enough fuel the loops end *)

Lemma scan_x_returns (fuel : nat) (x y : Q) (st : search_state) :
  stops fadd w W -> covers fuel W x ->
  exists r, scan_x fadd space fuel room placed_rooms x y st = Ok r.
Proof.
  intros Hstop. revert x st. induction fuel as [|f IH]; intros x st Hc.
  - destruct Hc; lia.
  - simpl. destruct (Qle_bool _ _) eqn:Hg; [| now eexists].
    apply IH. apply covers_step; [assumption |].
    apply Hstop. now apply Qle_bool_iff.
Qed.

Lemma scan_y_returns (fuel_x fuel : nat) (y : Q) (st : search_state) :
  stops fadd w W -> stops fadd h H ->
  covers fuel_x W 0 -> covers fuel H y ->
  exists r, scan_y fadd space fuel_x fuel room placed_rooms y st = Ok r.
Proof.
  intros Hsx Hsy Hx. revert y st. induction fuel as [|f IH]; intros y st Hc.
  - destruct Hc; lia.
  - simpl. destruct (Qle_bool _ _) eqn:Hg; [| now eexists].
    destruct (scan_x_returns fuel_x 0 y st Hsx Hx) as [st' ->]. simpl.
    apply IH. apply covers_step; [assumption |].
    apply Hsy. now apply Qle_bool_iff.
Qed.

Lemma room_fuel_covers (fuel : nat) :
  (room_fuel space room <= fuel)%nat -> covers fuel W 0 /\ covers fuel H 0.
Proof.
  unfold room_fuel. intros Hle. split.
  - apply covers_mono with (f := fuel_for W); [lia | apply fuel_for_covers].
  - apply covers_mono with (f := fuel_for H); [lia | apply fuel_for_covers].
Qed.

Lemma _find_best_position_returns (fuel : nat) :
  stops fadd w W -> stops fadd h H ->
  (room_fuel space room <= fuel)%nat ->
  exists r, _find_best_position fadd space fuel room placed_rooms = Ok r.
Proof.
  intros Hsx Hsy Hle. destruct (room_fuel_covers fuel Hle) as [Hx Hy].
  unfold _find_best_position.
  destruct (scan_y_returns fuel fuel 0 (None, NegInf) Hsx Hsy Hx Hy) as [st ->].
  simpl. now eexists.
Qed.

(** With enough fuel the search has scanned the candidates. *)
Lemma scanned_enough (fuel : nat) :
  stops fadd w W -> stops fadd h H ->
  (room_fuel space room <= fuel)%nat ->
  scanned fadd fuel space room = candidates fadd space room.
Proof.
  intros Hsx Hsy Hle. unfold candidates, scanned. cbv zeta.
  destruct (room_fuel_covers _ (Nat.le_refl (room_fuel space room))) as [Hx Hy].
  rewrite (grid_line_fuel (room_fuel space room) fuel w W 0) by assumption.
  rewrite (grid_line_fuel (room_fuel space room) fuel h H 0) by assumption.
  reflexivity.
Qed.

(** *** More fuel changes nothing *)

Lemma scan_x_mono (f f' : nat) (x y : Q) (st r : search_state) :
  scan_x fadd space f room placed_rooms x y st = Ok r -> (f <= f')%nat ->
  scan_x fadd space f' room placed_rooms x y st = Ok r.
Proof.
  revert f' x st. induction f as [|f IH]; intros f' x st Hr Hle.
  - discriminate.
  - destruct f' as [|f']; [lia |]. simpl in *.
    destruct (Qle_bool _ _); [| assumption].
    apply IH; [assumption | lia].
Qed.

Lemma scan_y_mono (fx fx' f f' : nat) (y : Q) (st r : search_state) :
  scan_y fadd space fx f room placed_rooms y st = Ok r ->
  (fx <= fx')%nat -> (f <= f')%nat ->
  scan_y fadd space fx' f' room placed_rooms y st = Ok r.
Proof.
  intros Hr Hx. revert f' y st Hr.
  induction f as [|f IH]; intros f' y st Hr Hle.
  - discriminate.
  - destruct f' as [|f']; [lia |]. simpl in *.
    destruct (Qle_bool _ _); [| assumption].
    apply bind_Ok in Hr as (st' & Hsx & Hr).
    rewrite (scan_x_mono _ _ _ _ _ _ Hsx Hx). simpl.
    apply IH; [assumption | lia].
Qed.

Lemma _find_best_position_mono (f f' : nat) (r : option Position.t) :
  _find_best_position fadd space f room placed_rooms = Ok r -> (f <= f')%nat ->
  _find_best_position fadd space f' room placed_rooms = Ok r.
Proof.
  unfold _find_best_position. intros Hr Hle.
  apply bind_Ok in Hr as (st & Hsy & Hr).
  now rewrite (scan_y_mono _ _ _ _ _ _ _ Hsy Hle Hle).
Qed.

(** With the fuel of the room the search is the fold over [candidates]. *)
Lemma _find_best_position_fold (fuel : nat) :
  stops fadd w W -> stops fadd h H ->
  (room_fuel space room <= fuel)%nat ->
  _find_best_position fadd space fuel room placed_rooms
  = Ok (fst (fold_left visit (candidates fadd space room) (None, NegInf))).
Proof.
  intros Hsx Hsy Hle.
  destruct (_find_best_position_returns fuel Hsx Hsy Hle) as [r Hr].
  rewrite Hr. apply _find_best_position_scanned in Hr.
  rewrite scanned_enough in Hr by assumption. now subst r.
Qed.

(** *** The fold keeps the earliest candidate of maximal score *)

Lemma visit_best (seen : list Position.t) (st : search_state) (c : Position.t) :
  best_of fadd room placed_rooms seen st ->
  best_of fadd room placed_rooms (seen ++ [c]) (visit st c).
Proof.
  unfold try_position.
  replace (Position.mk (Position.x c) (Position.y c)) with c by now destruct c.
  change (negb (_has_overlap fadd (with_position room c) placed_rooms))
    with (collision_free fadd room placed_rooms c).
  destruct st as [[p|] [|s|]]; simpl; try tauto.
  - intros (Hs & Hp & before & after & Hseen & Hb & Ha).
    destruct (collision_free fadd room placed_rooms c) eqn:Hc.
    + destruct (Qltb s (_score_position c)) eqn:Hlt.
      * apply Qltb_lt in Hlt. subst s.
        repeat split; try assumption.
        exists seen, []. repeat split; [| easy].
        intros c' Hin Hc'. subst seen.
        apply in_app_or in Hin as [Hin | [<- | Hin]].
        -- specialize (Hb c' Hin Hc'). lra.
        -- assumption.
        -- specialize (Ha c' Hin Hc'). lra.
      * apply Qltb_ge in Hlt. subst s.
        repeat split; try assumption.
        exists before, (after ++ [c]). subst seen.
        rewrite <- app_assoc. repeat split; try assumption.
        intros c' Hin Hc'.
        apply in_app_or in Hin as [Hin | [<- | []]]; auto.
    + repeat split; try assumption.
      exists before, (after ++ [c]). subst seen.
      rewrite <- app_assoc. repeat split; try assumption.
      intros c' Hin Hc'.
      apply in_app_or in Hin as [Hin | [<- | []]]; auto. congruence.
  - intros Hnone.
    destruct (collision_free fadd room placed_rooms c) eqn:Hc; simpl.
    + repeat split; try assumption.
      exists seen, []. repeat split; [| easy].
      intros c' Hin Hc'. rewrite (Hnone c' Hin) in Hc'. discriminate.
    + intros c' Hin. apply in_app_or in Hin as [Hin | [<- | []]]; auto.
Qed.

Lemma fold_visit_best (l seen : list Position.t) (st : search_state) :
  best_of fadd room placed_rooms seen st ->
  best_of fadd room placed_rooms (seen ++ l) (fold_left visit l st).
Proof.
  revert seen st. induction l as [|c l IH]; intros seen st Hst.
  - now rewrite app_nil_r.
  - simpl. replace (seen ++ c :: l) with ((seen ++ [c]) ++ l)
      by now rewrite <- app_assoc.
    apply IH. now apply visit_best.
Qed.

Lemma _find_best_position_best (fuel : nat) (r : option Position.t) :
  _find_best_position fadd space fuel room placed_rooms = Ok r ->
  exists s, best_of fadd room placed_rooms (scanned fadd fuel space room) (r, s).
Proof.
  intros Hr. apply _find_best_position_scanned in Hr.
  pose proof (fold_visit_best (scanned fadd fuel space room) [] (None, NegInf)) as Hb.
  simpl in Hb.
  destruct (fold_left visit (scanned fadd fuel space room) (None, NegInf)) as [r' s].
  simpl in Hr. subst r'. exists s. apply Hb. intros c [].
Qed.
End Search.

(** *** The stable descending sort *)

Section Sorting.
Context {A : Type} (key : A -> Z).

Lemma insert_desc_perm (a : A) (l : list A) :
  Permutation (insert_desc key a l) (a :: l).
Proof.
  induction l as [|b l IH]; simpl.
  - apply Permutation_refl.
  - destruct (key a <? key b)%Z.
    + eapply perm_trans; [apply perm_skip, IH | apply perm_swap].
    + apply Permutation_refl.
Qed.

Lemma sorted_desc_perm (l : list A) : Permutation (sorted_desc key l) l.
Proof.
  induction l as [|a l IH]; simpl.
  - apply perm_nil.
  - eapply perm_trans; [apply insert_desc_perm | now apply perm_skip].
Qed.

Lemma sorted_desc_In (a : A) (l : list A) : In a (sorted_desc key l) <-> In a l.
Proof.
  split; apply Permutation_in;
    [apply sorted_desc_perm | apply Permutation_sym, sorted_desc_perm].
Qed.

Lemma insert_desc_sorted (a : A) (l : list A) :
  StronglySorted (fun u v => (key v <= key u)%Z) l ->
  StronglySorted (fun u v => (key v <= key u)%Z) (insert_desc key a l).
Proof.
  induction 1 as [|b l Hl IH Hb]; simpl.
  - constructor; constructor.
  - destruct (key a <? key b)%Z eqn:Hab.
    + apply Z.ltb_lt in Hab. constructor; [exact IH |].
      apply List.Forall_forall. intros c Hc.
      apply (Permutation_in _ (insert_desc_perm a l)) in Hc as [<- | Hc].
      * lia.
      * rewrite List.Forall_forall in Hb. now apply Hb.
    + apply Z.ltb_ge in Hab. constructor; [now constructor |].
      constructor; [assumption |].
      eapply List.Forall_impl; [| exact Hb]. simpl. intros; lia.
Qed.

Lemma sorted_desc_sorted (l : list A) :
  StronglySorted (fun u v => (key v <= key u)%Z) (sorted_desc key l).
Proof.
  induction l as [|a l IH]; simpl;
    [constructor | now apply insert_desc_sorted].
Qed.

Lemma insert_desc_stable (k : Z) (a : A) (l : list A) :
  List.filter (fun u => (key u =? k)%Z) (insert_desc key a l)
  = List.filter (fun u => (key u =? k)%Z) (a :: l).
Proof.
  induction l as [|b l IH]; [reflexivity |].
  cbn [insert_desc]. destruct (key a <? key b)%Z eqn:Hab; [| reflexivity].
  apply Z.ltb_lt in Hab.
  cbn [List.filter] in *. rewrite IH.
  destruct (key a =? k)%Z eqn:Ha, (key b =? k)%Z eqn:Hb; try reflexivity.
  apply Z.eqb_eq in Ha, Hb. lia.
Qed.

Lemma sorted_desc_stable (k : Z) (l : list A) :
  List.filter (fun u => (key u =? k)%Z) (sorted_desc key l)
  = List.filter (fun u => (key u =? k)%Z) l.
Proof.
  induction l as [|a l IH]; [reflexivity |].
  cbn [sorted_desc]. rewrite insert_desc_stable.
  cbn [List.filter]. now rewrite IH.
Qed.
End Sorting.

(** *** The overlap test *)

Lemma rects_overlap_sym (p1 : Position.t) (d1 : Dimensions.t)
                        (p2 : Position.t) (d2 : Dimensions.t) :
  rects_overlap fadd p1 d1 p2 d2 = rects_overlap fadd p2 d2 p1 d1.
Proof.
  unfold rects_overlap. cbv zeta. f_equal.
  repeat match goal with |- context [Qle_bool ?a ?b] =>
    generalize (Qle_bool a b); intros ? end.
  repeat match goal with b : bool |- _ => destruct b end; reflexivity.
Qed.

Lemma _rooms_overlap_sym (a b : Room.t) : _rooms_overlap fadd a b = _rooms_overlap fadd b a.
Proof.
  unfold _rooms_overlap.
  destruct (Room.position a), (Room.position b); try reflexivity.
  apply rects_overlap_sym.
Qed.

(** [_has_overlap] is [_rooms_overlap] against some placed room. *)
Lemma _has_overlap_existsb (room : Room.t) (placed_rooms : list Room.t) :
  _has_overlap fadd room placed_rooms = existsb (_rooms_overlap fadd room) placed_rooms.
Proof.
  unfold _has_overlap, _rooms_overlap.
  destruct (Room.position room) as [p|].
  - induction placed_rooms as [|a l IH]; simpl; [reflexivity |].
    destruct (Room.position a) as [pa|]; [| exact IH].
    destruct (rects_overlap fadd _ _ _ _); [reflexivity | exact IH].
  - induction placed_rooms as [|a l IH]; simpl; [reflexivity | exact IH].
Qed.

Lemma collision_free_spec (room : Room.t) (placed_rooms : list Room.t)
                          (p : Position.t) :
  collision_free fadd room placed_rooms p = true <->
  forall a, In a placed_rooms -> _rooms_overlap fadd a (with_position room p) = false.
Proof.
  unfold collision_free. rewrite negb_true_iff, _has_overlap_existsb.
  rewrite <- not_true_iff_false, existsb_exists. split.
  - intros Hno a Ha. rewrite _rooms_overlap_sym.
    apply not_true_iff_false. intros Hov. apply Hno. now exists a.
  - intros Hall (a & Ha & Hov). rewrite _rooms_overlap_sym, Hall in Hov by assumption.
    discriminate.
Qed.

Lemma overlaps_with_nil (room1 : Room.t) (later : list Room.t) :
  (forall b, In b later -> _rooms_overlap fadd room1 b = false) ->
  overlaps_with fadd room1 later = [].
Proof.
  induction later as [|b l IH]; intros Hall; simpl; [reflexivity |].
  rewrite (Hall b) by now left.
  destruct (Room.position b); apply IH; intros; apply Hall; now right.
Qed.

Lemma _check_overlaps_nil (rooms : list Room.t) :
  ForallOrdPairs (fun a b => _rooms_overlap fadd a b = false) rooms ->
  _check_overlaps fadd rooms = [].
Proof.
  induction 1 as [|a l Ha Hl IH]; simpl; [reflexivity |].
  rewrite IH. rewrite List.Forall_forall in Ha.
  rewrite (overlaps_with_nil a l Ha). now destruct (Room.position a).
Qed.

Lemma ForallOrdPairs_snoc {A : Type} (R : A -> A -> Prop) (l : list A) (x : A) :
  ForallOrdPairs R l -> (forall a, In a l -> R a x) ->
  ForallOrdPairs R (l ++ [x]).
Proof.
  induction 1 as [|a l Ha Hl IH]; intros Hx; simpl.
  - repeat constructor.
  - constructor.
    + apply List.Forall_app. split; [assumption |].
      constructor; [| constructor]. apply Hx. now left.
    + apply IH. intros b Hb. apply Hx. now right.
Qed.

Lemma ForallOrdPairs_lookup {A : Type} (R : A -> A -> Prop) (l : list A) :
  ForallOrdPairs R l ->
  forall (i j : nat) (a b : A),
    (i < j)%nat -> nth_error l i = Some a -> nth_error l j = Some b -> R a b.
Proof.
  induction 1 as [|c l Hc Hl IH]; intros i j a b Hij Hi Hj.
  - destruct i; discriminate.
  - destruct j as [|j]; [lia |]. simpl in Hj.
    destruct i as [|i]; simpl in Hi.
    + injection Hi as <-. rewrite List.Forall_forall in Hc.
      apply Hc. eapply nth_error_In, Hj.
    + apply (IH i j); [lia | assumption | assumption].
Qed.

(** *** What is scanned lies on the grid inside the space *)

Lemma grid_line_bounds (fuel : nat) (e l c v : Q) :
  In v (grid_line fadd fuel e l c) -> c <= v /\ fadd v e <= l.
Proof.
  revert c. induction fuel as [|f IH]; intros c; simpl; [tauto |].
  destruct (Qle_bool (fadd c e) l) eqn:Hg; [| intros []].
  apply Qle_bool_iff in Hg. intros [<- | Hin].
  - split; [apply Qle_refl | assumption].
  - apply IH in Hin as [Hc Hv]. unfold grid_step in Hc. split; [lra | assumption].
Qed.

Lemma scanned_bounds (fuel : nat) (space : Space.t) (room : Room.t)
                     (p : Position.t) :
  In p (scanned fadd fuel space room) -> inside fadd space (with_position room p).
Proof.
  unfold scanned. cbv zeta. rewrite in_flat_map.
  intros (cy & Hy & Hp). apply in_map_iff in Hp as (cx & <- & Hx).
  apply grid_line_bounds in Hx, Hy.
  eexists. split; [reflexivity |]. simpl. tauto.
Qed.

(** *** What a successful search returns *)

Lemma _find_best_position_Some (space : Space.t) (fuel : nat) (room : Room.t)
                               (placed_rooms : list Room.t) (p : Position.t) :
  _find_best_position fadd space fuel room placed_rooms = Ok (Some p) ->
  In p (scanned fadd fuel space room) /\ collision_free fadd room placed_rooms p = true.
Proof.
  intros Hr. apply _find_best_position_best in Hr as (s & Hb).
  destruct s as [|s|]; simpl in Hb; try contradiction.
  destruct Hb as (_ & Hfree & before & after & Hseen & _).
  split; [| assumption]. rewrite Hseen. apply in_elt.
Qed.

(** *** The placement loop *)

Section Placement.
Variable space : Space.t.

Lemma place_rooms_mono (f f' : nat) (sorted_rooms placed_rooms out : list Room.t) :
  place_rooms fadd space f sorted_rooms placed_rooms = Ok out -> (f <= f')%nat ->
  place_rooms fadd space f' sorted_rooms placed_rooms = Ok out.
Proof.
  revert placed_rooms.
  induction sorted_rooms as [|room rest IH]; intros placed_rooms Hout Hle.
  - assumption.
  - simpl in *. apply bind_Ok in Hout as (r & Hfind & Hout).
    rewrite (_find_best_position_mono _ _ _ _ _ _ Hfind Hle). simpl.
    destruct r; now apply IH.
Qed.

Lemma place_rooms_returns (fuel : nat) (sorted_rooms placed_rooms : list Room.t) :
  float_addition fadd ->
  (forall room, In room sorted_rooms ->
                Dimensions.valid (Room.dimensions room) /\
                (room_fuel space room <= fuel)%nat) ->
  exists out, place_rooms fadd space fuel sorted_rooms placed_rooms = Ok out.
Proof.
  intros Hadd. revert placed_rooms.
  induction sorted_rooms as [|room rest IH]; intros placed_rooms Hfuel.
  - now exists placed_rooms.
  - simpl. destruct (Hfuel room (or_introl eq_refl)) as [[Hw Hh] Hle].
    rewrite _find_best_position_fold;
      [| apply float_addition_stops; [assumption | lra] ..| assumption].
    simpl. destruct (fst _); apply IH; intros; apply Hfuel; now right.
Qed.

(** A property of the placed list that every successful placement
    preserves holds of the result. *)
Lemma place_rooms_invariant (Inv : list Room.t -> Prop) (fuel : nat)
                            (templates : list Room.t) :
  (forall room placed_rooms p,
      In room templates -> Inv placed_rooms ->
      _find_best_position fadd space fuel room placed_rooms = Ok (Some p) ->
      Inv (placed_rooms ++ [with_position room p])) ->
  forall sorted_rooms placed_rooms out,
    (forall room, In room sorted_rooms -> In room templates) ->
    Inv placed_rooms ->
    place_rooms fadd space fuel sorted_rooms placed_rooms = Ok out ->
    Inv out.
Proof.
  intros Hstep sorted_rooms.
  induction sorted_rooms as [|room rest IH]; intros placed_rooms out Hin Hinv Hout.
  - simpl in Hout. congruence.
  - simpl in Hout. apply bind_Ok in Hout as (r & Hfind & Hout).
    destruct r as [p|].
    + apply (IH (placed_rooms ++ [with_position room p]) out); try assumption.
      * intros; apply Hin; now right.
      * apply Hstep; try assumption. apply Hin; now left.
    + apply (IH placed_rooms out); try assumption.
      intros; apply Hin; now right.
Qed.

Lemma enough_fuel_room (room : Room.t) :
  In room (Space.rooms space) -> (room_fuel space room <= enough_fuel space)%nat.
Proof.
  unfold enough_fuel. induction (Space.rooms space) as [|a l IH]; simpl.
  - intros [].
  - intros [<- | Hin]; [lia | specialize (IH Hin); lia].
Qed.
End Placement.

(** *** The validator returns unless a bound is not a number *)

Section Validation.
Variable pow_half : Q -> Q.
Variable space : Space.t.

Lemma check_constraint_typed (rooms : list Room.t) (c : Constraint.t) :
  constraint_typed c -> exists vs, check_constraint pow_half rooms c = Ok vs.
Proof.
  unfold constraint_typed, check_constraint, _check_min_distance, _check_adjacency.
  intros [Hmin Hadj].
  destruct (String.eqb (Constraint.type c) "min_distance") eqn:Emin.
  - specialize (Hmin eq_refl).
    destruct (List.find _ rooms) as [r1|]; [| now eexists].
    destruct (List.find _ rooms) as [r2|]; [| now eexists].
    destruct (Room.position r1); [| now eexists].
    destruct (Room.position r2); [| now eexists].
    destruct (Constraint.params c !! "distance") as [[| |d|]|];
      simpl in *; try contradiction; now eexists.
  - destruct (String.eqb (Constraint.type c) "adjacency") eqn:Eadj; [| now eexists].
    specialize (Hadj eq_refl).
    destruct (List.find _ rooms) as [r1|]; [| now eexists].
    destruct (List.find _ rooms) as [r2|]; [| now eexists].
    destruct (Room.position r1); [| now eexists].
    destruct (Room.position r2); [| now eexists].
    destruct (Constraint.params c !! "max_distance") as [[| |d|]|];
      simpl in *; try contradiction; now eexists.
Qed.

Lemma custom_loop_typed (rooms : list Room.t) (cs : list Constraint.t)
                        (acc : list Violation) :
  Forall constraint_typed cs -> exists vs, custom_loop pow_half rooms cs acc = Ok vs.
Proof.
  intros Hcs. revert acc. induction Hcs as [|c cs Hc Hcs IH]; intros acc; simpl.
  - now eexists.
  - destruct (check_constraint_typed rooms c Hc) as [vs ->]. simpl. apply IH.
Qed.

Lemma validate_layout_typed (rooms : list Room.t) :
  Forall constraint_typed (Space.constraints space) ->
  exists vs, validate_layout fadd pow_half space rooms = Ok vs.
Proof.
  intros Hcs. unfold validate_layout, _check_custom_constraints.
  destruct (custom_loop_typed rooms _ [] Hcs) as [vs ->]. simpl. now eexists.
Qed.

(** *** [generate_layout] *)

Lemma generate_layout_Ok (fuel : nat) (l : Layout.t) :
  generate_layout fadd pow_half space fuel = Ok l ->
  Layout.space l = space /\
  place_rooms fadd space fuel (sorted_desc Room.priority (Space.rooms space)) []
    = Ok (Layout.placed_rooms l) /\
  validate_layout fadd pow_half space (Layout.placed_rooms l) = Ok (Layout.violations l) /\
  Layout.score l
    = _calculate_score space (Layout.placed_rooms l) (Layout.violations l).
Proof.
  unfold generate_layout. intros Hl.
  apply bind_Ok in Hl as (placed & Hplace & Hl).
  apply bind_Ok in Hl as (vs & Hval & Hl).
  injection Hl as <-. simpl. auto.
Qed.

Lemma generate_layout_returns (fuel : nat) :
  float_addition fadd ->
  Forall (fun r => Dimensions.valid (Room.dimensions r)) (Space.rooms space) ->
  (enough_fuel space <= fuel)%nat ->
  Forall constraint_typed (Space.constraints space) ->
  exists l, generate_layout fadd pow_half space fuel = Ok l.
Proof.
  intros Hadd Hvalid Hfuel Hcs. unfold generate_layout.
  destruct (place_rooms_returns space fuel
              (sorted_desc Room.priority (Space.rooms space)) []) as [placed ->].
  { assumption. }
  { intros room Hin. apply sorted_desc_In in Hin. split.
    - rewrite List.Forall_forall in Hvalid. now apply Hvalid.
    - apply enough_fuel_room in Hin. lia. }
  simpl. destruct (validate_layout_typed placed Hcs) as [vs ->]. simpl.
  now eexists.
Qed.

Lemma generate_layout_total :
  float_addition fadd -> Space.valid space ->
  Forall constraint_typed (Space.constraints space) ->
  exists l, generate_layout fadd pow_half space (enough_fuel space) = Ok l.
Proof.
  intros Hadd [_ Hvalid] Hcs.
  apply generate_layout_returns; try assumption; [| lia].
  eapply List.Forall_impl; [| exact Hvalid]. now intros r [Hd _].
Qed.

Lemma generate_layout_mono (f f' : nat) (l : Layout.t) :
  generate_layout fadd pow_half space f = Ok l -> (f <= f')%nat ->
  generate_layout fadd pow_half space f' = Ok l.
Proof.
  unfold generate_layout. intros Hl Hle.
  apply bind_Ok in Hl as (placed & Hplace & Hl).
  now rewrite (place_rooms_mono _ _ _ _ _ _ Hplace Hle).
Qed.
End Validation.

(** *** Invariants of the placed rooms *)

Section PlacedRooms.
Variable space : Space.t.

Lemma placed_rooms_disjoint (fuel : nat) (sorted_rooms out : list Room.t) :
  place_rooms fadd space fuel sorted_rooms [] = Ok out ->
  ForallOrdPairs (fun a b => _rooms_overlap fadd a b = false) out.
Proof.
  apply (place_rooms_invariant space
           (ForallOrdPairs (fun a b => _rooms_overlap fadd a b = false))
           fuel sorted_rooms); [| auto | constructor].
  intros room placed_rooms p _ Hinv Hfind.
  apply _find_best_position_Some in Hfind as [_ Hfree].
  apply ForallOrdPairs_snoc; [assumption |].
  now apply collision_free_spec.
Qed.

Lemma placed_rooms_inside (fuel : nat) (sorted_rooms out : list Room.t) :
  place_rooms fadd space fuel sorted_rooms [] = Ok out ->
  Forall (inside fadd space) out.
Proof.
  apply (place_rooms_invariant space (Forall (inside fadd space))
           fuel sorted_rooms); [| auto | constructor].
  intros room placed_rooms p _ Hinv Hfind.
  apply _find_best_position_Some in Hfind as [Hcand _].
  apply scanned_bounds in Hcand.
  apply List.Forall_app. split; [assumption |].
  constructor; [assumption | constructor].
Qed.

Lemma placed_rooms_copies (fuel : nat) (sorted_rooms out : list Room.t) :
  place_rooms fadd space fuel sorted_rooms [] = Ok out ->
  Forall (fun r => exists t, In t sorted_rooms /\ placed_copy_of t r) out.
Proof.
  apply (place_rooms_invariant space
           (Forall (fun r => exists t, In t sorted_rooms /\ placed_copy_of t r))
           fuel sorted_rooms); [| auto | constructor].
  intros room placed_rooms p Hin Hinv _.
  apply List.Forall_app. split; [assumption |].
  constructor; [| constructor]. exists room. split; [assumption |].
  unfold placed_copy_of. simpl. eauto 10.
Qed.

Lemma _check_bounds_nil (rooms : list Room.t) :
  Forall (inside fadd space) rooms -> _check_bounds fadd space rooms = [].
Proof.
  induction 1 as [|r l (p & Hp & _ & _ & Hx & Hy) Hl IH]; simpl; [reflexivity |].
  rewrite IH. unfold bounds_of_room. rewrite Hp. unfold Qgtb.
  apply Qltb_ge in Hx, Hy. now rewrite Hx, Hy.
Qed.
End PlacedRooms.

Lemma pairwise_disjoint_of_ordered (rooms : list Room.t) :
  ForallOrdPairs (fun a b => _rooms_overlap fadd a b = false) rooms ->
  pairwise_disjoint fadd rooms.
Proof.
  intros Hord i j a b Hij Hi Hj.
  destruct (Nat.lt_ge_cases i j) as [Hlt | Hge].
  - exact (ForallOrdPairs_lookup _ _ Hord i j a b Hlt Hi Hj).
  - rewrite _rooms_overlap_sym.
    apply (ForallOrdPairs_lookup _ _ Hord j i b a); [lia | assumption | assumption].
Qed.

(** *** The first collision-free candidate and the returned one *)

Lemma filter_none {A : Type} (f : A -> bool) (l : list A) :
  (forall a, In a l -> f a = false) -> List.filter f l = [].
Proof.
  induction l as [|a l IH]; intros Hall; simpl; [reflexivity |].
  rewrite (Hall a) by now left. apply IH. intros; apply Hall; now right.
Qed.

Lemma hd_error_filter {A : Type} (f : A -> bool) (l : list A) (a : A) :
  hd_error (List.filter f l) = Some a ->
  exists l1 l2, l = l1 ++ a :: l2 /\ f a = true /\
                forall b, In b l1 -> f b = false.
Proof.
  induction l as [|b l IH]; simpl; [discriminate |].
  destruct (f b) eqn:Hb; simpl.
  - intros [= <-]. exists [], l. repeat split; [assumption | intros ? []].
  - intros Hhd. destruct (IH Hhd) as (l1 & l2 & -> & Ha & Hl1).
    exists (b :: l1), l2. repeat split; [assumption |].
    intros c [<- | Hc]; auto.
Qed.

Lemma split_at_two {A : Type} (l1 l2 l3 l4 : list A) (a b : A) :
  l1 ++ a :: l2 = l3 ++ b :: l4 -> a = b \/ In a l3 \/ In b l1.
Proof.
  revert l3. induction l1 as [|c l1 IH]; intros [|c' l3] Heq; simpl in *.
  - injection Heq as -> _. now left.
  - injection Heq as -> _. right; left; now left.
  - injection Heq as -> _. right; right; now left.
  - injection Heq as -> Heq. destruct (IH _ Heq) as [H | [H | H]]; auto.
Qed.

(** *** The order of placement *)

Section PlacementOrder.
Variable space : Space.t.

(** The placed rooms are, in order, copies of some of the sorted rooms. *)
Lemma place_rooms_sublist {B : Type} (f : Room.t -> B) (fuel : nat) :
  (forall r p, f (with_position r p) = f r) ->
  forall sorted_rooms placed_rooms out,
    place_rooms fadd space fuel sorted_rooms placed_rooms = Ok out ->
    exists chosen,
      out = placed_rooms ++ chosen /\
      sublist (map f chosen) (map f sorted_rooms).
Proof.
  intros Hf sorted_rooms.
  induction sorted_rooms as [|room rest IH]; intros placed_rooms out Hout.
  - simpl in Hout. injection Hout as <-. exists []. rewrite app_nil_r.
    split; [reflexivity | constructor].
  - simpl in Hout. apply bind_Ok in Hout as (r & _ & Hout).
    destruct r as [p|].
    + apply IH in Hout as (chosen & -> & Hsub).
      exists (with_position room p :: chosen). rewrite <- app_assoc.
      split; [reflexivity |]. simpl. rewrite Hf. now constructor.
    + apply IH in Hout as (chosen & -> & Hsub).
      exists chosen. split; [reflexivity |]. simpl. now constructor.
Qed.

(** A search that runs at all starts at the origin. *)
Lemma scanned_head (fuel : nat) (room : Room.t) :
  (forall b, fadd 0 b == b) ->
  Dimensions.width (Room.dimensions room)
    <= Dimensions.width (Space.dimensions space) ->
  Dimensions.height (Room.dimensions room)
    <= Dimensions.height (Space.dimensions space) ->
  exists rest, scanned fadd (S fuel) space room = Position.mk 0 0 :: rest.
Proof.
  intros Hzero Hw Hh. unfold scanned. cbv zeta. cbn [grid_line].
  assert (forall e l, e <= l -> Qle_bool (fadd 0 e) l = true) as Hg.
  { intros e l Hle. apply Qle_bool_iff. now rewrite Hzero. }
  rewrite !Hg by assumption. cbn [flat_map map app]. now eexists.
Qed.

(** In an empty space a room that fits goes to the origin. *)
Lemma first_room_at_origin (fuel : nat) (room : Room.t)
                           (r : option Position.t) :
  (forall b, fadd 0 b == b) ->
  Dimensions.width (Room.dimensions room)
    <= Dimensions.width (Space.dimensions space) ->
  Dimensions.height (Room.dimensions room)
    <= Dimensions.height (Space.dimensions space) ->
  _find_best_position fadd space fuel room [] = Ok r ->
  r = Some (Position.mk 0 0).
Proof.
  intros Hzero Hw Hh Hr.
  destruct fuel as [|fuel]; [discriminate |].
  apply _find_best_position_best in Hr as (s & Hb).
  destruct (scanned_head fuel room Hzero Hw Hh) as [rest Hcand].
  destruct r as [p|]; destruct s as [|s|]; simpl in Hb; try contradiction.
  - destruct Hb as (_ & _ & before & after & Hseen & Hbefore & _).
    destruct before as [|c before].
    + rewrite Hcand in Hseen. simpl in Hseen. injection Hseen as <- _. reflexivity.
    + exfalso. rewrite Hcand in Hseen. simpl in Hseen.
      injection Hseen as <- Hrest.
      assert (In p (scanned fadd (S fuel) space room)) as Hin.
      { rewrite Hcand. right. rewrite Hrest. apply in_elt. }
      apply scanned_bounds in Hin as (p' & [= <-] & Hx & Hy & _).
      specialize (Hbefore (Position.mk 0 0) (or_introl eq_refl) eq_refl).
      unfold _score_position in Hbefore. simpl in Hbefore. lra.
  - exfalso. specialize (Hb (Position.mk 0 0)).
    rewrite Hcand in Hb. specialize (Hb (or_introl eq_refl)). discriminate.
Qed.

(** Next to a room of positive size at the origin, no room of positive
    size is collision-free at the origin. *)
Lemma origin_taken (first room : Room.t) (p : Position.t) :
  float_addition fadd ->
  Dimensions.valid (Room.dimensions first) ->
  Dimensions.valid (Room.dimensions room) ->
  collision_free fadd room [with_position first (Position.mk 0 0)] p = true ->
  ~ Position.same p (Position.mk 0 0).
Proof.
  intros (_ & _ & Hge) [Hw1 Hh1] [Hw2 Hh2] Hfree [Hx Hy]. simpl in Hx, Hy.
  rewrite collision_free_spec in Hfree.
  specialize (Hfree _ (or_introl eq_refl)).
  unfold _rooms_overlap, rects_overlap in Hfree. simpl in Hfree.
  apply negb_false_iff in Hfree.
  rewrite !orb_true_iff, !Qle_bool_iff in Hfree.
  pose proof (Hge (Position.x p) (Dimensions.width (Room.dimensions room))).
  pose proof (Hge (Position.y p) (Dimensions.height (Room.dimensions room))).
  pose proof (Hge 0 (Dimensions.width (Room.dimensions first))).
  pose proof (Hge 0 (Dimensions.height (Room.dimensions first))).
  lra.
Qed.
End PlacementOrder.

Lemma Sorted_desc_sublist (l1 l2 : list Z) :
  sublist l1 l2 ->
  StronglySorted (fun u v => (v <= u)%Z) l2 ->
  StronglySorted (fun u v => (v <= u)%Z) l1.
Proof.
  induction 1 as [|a l1 l2 Hsub IH|a l1 l2 Hsub IH]; intros Hs.
  - constructor.
  - apply StronglySorted_inv in Hs as [Hs Ha]. constructor; [now apply IH |].
    clear IH Hs. induction Hsub as [|b l1 l2 Hsub IH|b l1 l2 Hsub IH].
    + constructor.
    + inversion Ha; subst. constructor; auto.
    + inversion Ha; subst. auto.
  - apply StronglySorted_inv in Hs as [Hs _]. now apply IH.
Qed.

Lemma StronglySorted_map {A B : Type} (f : A -> B) (R : B -> B -> Prop)
                         (l : list A) :
  StronglySorted (fun u v => R (f u) (f v)) l -> StronglySorted R (map f l).
Proof.
  induction 1 as [|a l Hl IH Ha]; simpl; constructor; [assumption |].
  apply List.Forall_map. exact Ha.
Qed.

(** ** The claims *)

(** C2.  Whatever [generate_layout] returns, no two distinct placed rooms
    overlap under the half-open test, and the validator's overlap check
    reports nothing; and for a valid space it does return (with the fuel
    [enough_fuel]) unless a constraint bound is not a number, the
    addition obeying its laws. *)
Theorem generate_layout_no_overlaps (pow_half : Q -> Q) (space : Space.t) :
  (float_addition fadd -> Space.valid space ->
   Forall constraint_typed (Space.constraints space) ->
   exists l, generate_layout fadd pow_half space (enough_fuel space) = Ok l) /\
  (forall fuel l,
     generate_layout fadd pow_half space fuel = Ok l ->
     pairwise_disjoint fadd (Layout.placed_rooms l) /\
     _check_overlaps fadd (Layout.placed_rooms l) = []).
Proof.
  split.
  - apply generate_layout_total.
  - intros fuel l Hl.
    apply generate_layout_Ok in Hl as (_ & Hplace & _).
    apply placed_rooms_disjoint in Hplace.
    split; [now apply pairwise_disjoint_of_ordered | now apply _check_overlaps_nil].
Qed.

(** C3.  Every placed room of the returned layout has a position with
    [x >= 0], [y >= 0], [x + width <= space.width] and
    [y + height <= space.height], the sums being those the loop guards
    compute; the bounds check, which computes the same sums, reports
    nothing.  For a valid space a layout is returned unless a constraint
    bound is not a number, the addition obeying its laws. *)
Theorem generate_layout_within_bounds (pow_half : Q -> Q) (space : Space.t) :
  (float_addition fadd -> Space.valid space ->
   Forall constraint_typed (Space.constraints space) ->
   exists l, generate_layout fadd pow_half space (enough_fuel space) = Ok l) /\
  (forall fuel l,
     generate_layout fadd pow_half space fuel = Ok l ->
     Forall (inside fadd space) (Layout.placed_rooms l) /\
     _check_bounds fadd space (Layout.placed_rooms l) = []).
Proof.
  split.
  - apply generate_layout_total.
  - intros fuel l Hl.
    apply generate_layout_Ok in Hl as (_ & Hplace & _).
    apply placed_rooms_inside in Hplace.
    split; [assumption | now apply _check_bounds_nil].
Qed.

(** C10.  Every placed room of the returned layout is a copy of a
    template of [space.rooms] that agrees with it on id, name, dimensions,
    room_type and priority and carries a position; the layout holds the
    input space unchanged, so templates without a position stay so.  For
    a valid space a layout is returned unless a constraint bound is not a
    number, the addition obeying its laws. *)
Theorem generate_layout_copies_templates (pow_half : Q -> Q) (space : Space.t) :
  (float_addition fadd -> Space.valid space ->
   Forall constraint_typed (Space.constraints space) ->
   exists l, generate_layout fadd pow_half space (enough_fuel space) = Ok l) /\
  (forall fuel l,
     generate_layout fadd pow_half space fuel = Ok l ->
     Forall (fun r => exists t, In t (Space.rooms space) /\ placed_copy_of t r)
            (Layout.placed_rooms l) /\
     Layout.space l = space /\
     (Forall (fun t => Room.position t = None) (Space.rooms space) ->
      Forall (fun t => Room.position t = None) (Space.rooms (Layout.space l)))).
Proof.
  split.
  - apply generate_layout_total.
  - intros fuel l Hl.
    apply generate_layout_Ok in Hl as (Hspace & Hplace & _).
    apply placed_rooms_copies in Hplace.
    split; [| split; [assumption | now rewrite Hspace]].
    eapply List.Forall_impl; [| exact Hplace]. simpl.
    intros r (t & Hin & Hcopy). exists t. split; [| assumption].
    now apply sorted_desc_In in Hin.
Qed.

(** C1, as the code has it.  For a room of positive size, with enough
    fuel and an addition that obeys its laws, [_find_best_position]
    returns; it returns [None] exactly when no candidate is
    collision-free, and otherwise the collision-free candidate of maximal
    score [-(x + y)] that comes first in the scan.  That is the first
    collision-free candidate whenever the latter attains the maximal
    score, and not otherwise. *)
Theorem _find_best_position_earliest_maximum
    (space : Space.t) (room : Room.t) (placed_rooms : list Room.t) (fuel : nat) :
  float_addition fadd ->
  Dimensions.valid (Room.dimensions room) ->
  (room_fuel space room <= fuel)%nat ->
  exists r,
    _find_best_position fadd space fuel room placed_rooms = Ok r /\
    match r with
    | None => free_candidates fadd space room placed_rooms = []
    | Some p =>
        In p (free_candidates fadd space room placed_rooms) /\
        (forall c, In c (free_candidates fadd space room placed_rooms) ->
                   _score_position c <= _score_position p) /\
        (exists before after,
            candidates fadd space room = before ++ p :: after /\
            forall c, In c before ->
                      collision_free fadd room placed_rooms c = true ->
                      _score_position c < _score_position p) /\
        (forall q, first_free fadd space room placed_rooms = Some q ->
                   _score_position p <= _score_position q -> p = q)
    end.
Proof.
  intros Hadd [Hw Hh] Hfuel.
  assert (stops fadd (Dimensions.width (Room.dimensions room))
                (Dimensions.width (Space.dimensions space))) as Hsx
    by (apply float_addition_stops; [assumption | lra]).
  assert (stops fadd (Dimensions.height (Room.dimensions room))
                (Dimensions.height (Space.dimensions space))) as Hsy
    by (apply float_addition_stops; [assumption | lra]).
  pose proof (_find_best_position_fold space room placed_rooms fuel
                Hsx Hsy Hfuel) as Hr.
  eexists. split; [exact Hr |].
  apply _find_best_position_best in Hr as (s & Hb).
  rewrite scanned_enough in Hb by assumption.
  destruct (fst _) as [p|]; destruct s as [|s|]; simpl in Hb; try contradiction.
  - destruct Hb as (_ & Hfree & before & after & Hseen & Hbefore & Hafter).
    unfold free_candidates, first_free, free_candidates.
    repeat split.
    + apply filter_In. split; [rewrite Hseen; apply in_elt | assumption].
    + intros c Hc. apply filter_In in Hc as [Hc Hcf]. rewrite Hseen in Hc.
      apply in_app_or in Hc as [Hc | [<- | Hc]].
      * apply Qlt_le_weak; auto.
      * apply Qle_refl.
      * auto.
    + exists before, after. split; assumption.
    + intros q Hq Hle.
      apply hd_error_filter in Hq as (l1 & l2 & Hcand & Hqf & Hl1).
      rewrite Hseen in Hcand.
      destruct (split_at_two _ _ _ _ _ _ Hcand) as [Hpq | [Hp | Hqb]].
      * assumption.
      * rewrite (Hl1 p Hp) in Hfree. discriminate.
      * specialize (Hbefore q Hqb Hqf). lra.
  - unfold free_candidates. now apply filter_none.
Qed.

(** C9.  The rooms are attempted in the order of the stable sort by
    descending priority: the sorted list is a permutation of
    [space.rooms], descends in priority and keeps rooms of equal priority
    in their original order, and the placed rooms follow that order.  So
    when the space holds two rooms of positive size, [A] of the higher
    priority fitting in the space, and the addition obeys its laws, the
    layout has [A] at (0, 0) first and [B] either not at all or at another
    point. *)
Theorem generate_layout_priority_order (pow_half : Q -> Q) (space : Space.t) :
  let sorted_rooms := sorted_desc Room.priority (Space.rooms space) in
  (Permutation sorted_rooms (Space.rooms space) /\
   StronglySorted (fun a b => (Room.priority b <= Room.priority a)%Z) sorted_rooms /\
   forall k, List.filter (fun r => (Room.priority r =? k)%Z) sorted_rooms
             = List.filter (fun r => (Room.priority r =? k)%Z) (Space.rooms space)) /\
  (forall fuel l,
      generate_layout fadd pow_half space fuel = Ok l ->
      place_rooms fadd space fuel sorted_rooms [] = Ok (Layout.placed_rooms l) /\
      sublist (map Room.priority (Layout.placed_rooms l))
              (map Room.priority sorted_rooms) /\
      StronglySorted (fun u v => (v <= u)%Z)
                     (map Room.priority (Layout.placed_rooms l))) /\
  (forall A B,
      float_addition fadd ->
      Space.rooms space = [A; B] \/ Space.rooms space = [B; A] ->
      (Room.priority B < Room.priority A)%Z ->
      Dimensions.valid (Room.dimensions A) ->
      Dimensions.valid (Room.dimensions B) ->
      Dimensions.width (Room.dimensions A)
        <= Dimensions.width (Space.dimensions space) ->
      Dimensions.height (Room.dimensions A)
        <= Dimensions.height (Space.dimensions space) ->
      Forall constraint_typed (Space.constraints space) ->
      exists l rest,
        generate_layout fadd pow_half space (enough_fuel space) = Ok l /\
        Layout.placed_rooms l = with_position A (Position.mk 0 0) :: rest /\
        (rest = [] \/
         exists p, rest = [with_position B p] /\
                   ~ Position.same p (Position.mk 0 0))).
Proof.
  intros sorted_rooms. split; [| split].
  - split; [apply sorted_desc_perm |].
    split; [apply sorted_desc_sorted | intros k; apply sorted_desc_stable].
  - intros fuel l Hl.
    apply generate_layout_Ok in Hl as (_ & Hplace & _).
    split; [exact Hplace |].
    destruct (place_rooms_sublist space Room.priority fuel
                (fun _ _ => eq_refl) _ _ _ Hplace) as (chosen & Hout & Hsub).
    simpl in Hout. rewrite <- Hout in Hsub. split; [exact Hsub |].
    eapply Sorted_desc_sublist; [exact Hsub |].
    apply StronglySorted_map, sorted_desc_sorted.
  - intros A B Hadd Hrooms Hprio HA HB Hw Hh Hcs.
    assert (sorted_rooms = [A; B]) as Hsorted.
    { unfold sorted_rooms. destruct Hrooms as [-> | ->]; simpl.
      - assert ((Room.priority A <? Room.priority B)%Z = false) as ->
          by (apply Z.ltb_ge; lia).
        reflexivity.
      - assert ((Room.priority B <? Room.priority A)%Z = true) as ->
          by (apply Z.ltb_lt; lia).
        reflexivity. }
    assert (Forall (fun r => Dimensions.valid (Room.dimensions r))
                   (Space.rooms space)) as Hvalid.
    { destruct Hrooms as [-> | ->]; repeat constructor; apply HA || apply HB. }
    destruct (generate_layout_returns pow_half space (enough_fuel space)
                Hadd Hvalid (Nat.le_refl _) Hcs) as [l Hl].
    exists l. pose proof Hl as Hl'.
    apply generate_layout_Ok in Hl' as (_ & Hplace & _).
    fold sorted_rooms in Hplace. rewrite Hsorted in Hplace. simpl in Hplace.
    apply bind_Ok in Hplace as (rA & HfindA & Hplace).
    apply first_room_at_origin in HfindA; [| apply Hadd | assumption ..].
    subst rA. simpl in Hplace.
    apply bind_Ok in Hplace as (r & Hfind & Hplace).
    destruct r as [p|]; injection Hplace as Hplace.
    + exists [with_position B p]. split; [exact Hl |]. split; [now symmetry |].
      right. exists p. split; [reflexivity |].
      apply _find_best_position_Some in Hfind as [_ Hfree].
      exact (origin_taken A B p Hadd HA HB Hfree).
    + exists []. split; [exact Hl |]. split; [now symmetry | now left].
Qed.

(** C4.  [generate_layout] is a function of the space: two runs on equal
    spaces that both return, with whatever loop budgets, return the same
    layout, so the positions of the placed rooms, the score and the
    violations agree. *)
Theorem generate_layout_deterministic
    (pow_half : Q -> Q) (s1 s2 : Space.t) (f1 f2 : nat) (l1 l2 : Layout.t) :
  s1 = s2 ->
  generate_layout fadd pow_half s1 f1 = Ok l1 ->
  generate_layout fadd pow_half s2 f2 = Ok l2 ->
  map Room.position (Layout.placed_rooms l1)
    = map Room.position (Layout.placed_rooms l2) /\
  Layout.score l1 = Layout.score l2 /\
  Layout.violations l1 = Layout.violations l2 /\
  l1 = l2.
Proof.
  intros <- H1 H2.
  apply generate_layout_mono with (f' := Nat.max f1 f2) in H1; [| lia].
  apply generate_layout_mono with (f' := Nat.max f1 f2) in H2; [| lia].
  assert (l1 = l2) as <- by congruence. auto.
Qed.

(** C6.  For two positioned rooms the overlap test, in the validator and
    in the optimizer alike, holds iff none of [A.x2 <= B.x1],
    [B.x2 <= A.x1], [A.y2 <= B.y1], [B.y2 <= A.y1] does, where
    [x2 = x + width] and [y2 = y + height] are the sums the code
    computes; rectangles one of whose far edges so computed is a near
    edge of the other do not overlap. *)
Theorem overlap_test_half_open (a b : Room.t) (pa pb : Position.t) :
  Room.position a = Some pa ->
  Room.position b = Some pb ->
  let a_x2 := fadd (Position.x pa) (Dimensions.width (Room.dimensions a)) in
  let a_y2 := fadd (Position.y pa) (Dimensions.height (Room.dimensions a)) in
  let b_x2 := fadd (Position.x pb) (Dimensions.width (Room.dimensions b)) in
  let b_y2 := fadd (Position.y pb) (Dimensions.height (Room.dimensions b)) in
  (_rooms_overlap fadd a b = true <->
   ~ (a_x2 <= Position.x pb \/ b_x2 <= Position.x pa \/
      a_y2 <= Position.y pb \/ b_y2 <= Position.y pa)) /\
  _has_overlap fadd a [b] = _rooms_overlap fadd a b /\
  (a_x2 == Position.x pb \/ b_x2 == Position.x pa \/
   a_y2 == Position.y pb \/ b_y2 == Position.y pa ->
   _rooms_overlap fadd a b = false /\ _has_overlap fadd a [b] = false).
Proof.
  intros Ha Hb a_x2 a_y2 b_x2 b_y2.
  assert (_has_overlap fadd a [b] = _rooms_overlap fadd a b) as Hsame.
  { rewrite _has_overlap_existsb. simpl. apply orb_false_r. }
  assert (_rooms_overlap fadd a b = true <->
          ~ (a_x2 <= Position.x pb \/ b_x2 <= Position.x pa \/
             a_y2 <= Position.y pb \/ b_y2 <= Position.y pa)) as Hiff.
  { unfold _rooms_overlap, rects_overlap. rewrite Ha, Hb. cbv zeta.
    rewrite negb_true_iff, <- not_true_iff_false.
    rewrite !orb_true_iff, !Qle_bool_iff.
    subst a_x2 a_y2 b_x2 b_y2. tauto. }
  split; [exact Hiff |]. split; [exact Hsame |].
  intros Htouch. rewrite Hsame.
  assert (_rooms_overlap fadd a b = false) as Hno; [| now split].
  apply not_true_iff_false. rewrite Hiff. intros Hnot. apply Hnot.
  destruct Htouch as [H | [H | [H | H]]]; rewrite H; auto using Qle_refl.
Qed.

(** C7.  For a positioned room the bounds check reports the width axis
    iff [x + width > space.width] and the height axis iff
    [y + height > space.height], the sums being those the code computes,
    each on its own: two messages when both are exceeded, none when the
    room reaches the far boundaries exactly, as a room of the size of the
    space does at (0, 0).  Each room of a list is checked by itself. *)
Theorem bounds_check_strict (space : Space.t) (room : Room.t) (p : Position.t) :
  Room.position room = Some p ->
  let max_x := fadd (Position.x p) (Dimensions.width (Room.dimensions room)) in
  let max_y := fadd (Position.y p) (Dimensions.height (Room.dimensions room)) in
  let W := Dimensions.width (Space.dimensions space) in
  let H := Dimensions.height (Space.dimensions space) in
  (W < max_x -> H < max_y ->
   _check_bounds fadd space [room]
   = [ExceedsWidth (Room.name room) max_x W; ExceedsHeight (Room.name room) max_y H]) /\
  (W < max_x -> max_y <= H ->
   _check_bounds fadd space [room] = [ExceedsWidth (Room.name room) max_x W]) /\
  (max_x <= W -> H < max_y ->
   _check_bounds fadd space [room] = [ExceedsHeight (Room.name room) max_y H]) /\
  (max_x <= W -> max_y <= H -> _check_bounds fadd space [room] = []) /\
  ((forall b, fadd 0 b == b) ->
   p = Position.mk 0 0 -> Room.dimensions room = Space.dimensions space ->
   _check_bounds fadd space [room] = []) /\
  (forall rest,
      _check_bounds fadd space (room :: rest)
      = _check_bounds fadd space [room] ++ _check_bounds fadd space rest).
Proof.
  intros Hp max_x max_y W H.
  assert (max_x <= W -> max_y <= H -> _check_bounds fadd space [room] = []) as Hnone.
  { simpl. unfold bounds_of_room. rewrite Hp. cbv zeta.
    fold max_x max_y W H. unfold Qgtb.
    intros Hx Hy. apply Qltb_ge in Hx, Hy. now rewrite Hx, Hy. }
  split; [| split; [| split; [| split; [exact Hnone | split]]]].
  - simpl. unfold bounds_of_room. rewrite Hp. cbv zeta.
    fold max_x max_y W H. unfold Qgtb.
    intros Hx Hy. apply Qltb_lt in Hx, Hy. now rewrite Hx, Hy.
  - simpl. unfold bounds_of_room. rewrite Hp. cbv zeta.
    fold max_x max_y W H. unfold Qgtb.
    intros Hx Hy. apply Qltb_lt in Hx. apply Qltb_ge in Hy. now rewrite Hx, Hy.
  - simpl. unfold bounds_of_room. rewrite Hp. cbv zeta.
    fold max_x max_y W H. unfold Qgtb.
    intros Hx Hy. apply Qltb_ge in Hx. apply Qltb_lt in Hy. now rewrite Hx, Hy.
  - intros Hzero -> Hdim. apply Hnone; subst max_x max_y W H; simpl;
      rewrite Hzero, Hdim; apply Qle_refl.
  - intros rest. simpl. now rewrite app_nil_r.
Qed.

(** *** Looking a room up by the id a constraint names *)



(** ** Further properties of the validator *)

Lemma overlaps_with_nil_inv (room1 : Room.t) (later : list Room.t) :
  overlaps_with fadd room1 later = [] ->
  forall b, In b later -> _rooms_overlap fadd room1 b = false.
Proof.
  induction later as [|c l IH]; simpl; [intros _ b [] |].
  intros Hnil b Hb.
  destruct (Room.position c) as [pc|] eqn:Hc.
  - destruct (_rooms_overlap fadd room1 c) eqn:Hov; [discriminate |].
    destruct Hb as [<- | Hb]; [assumption | now apply IH].
  - destruct Hb as [<- | Hb]; [| now apply IH].
    unfold _rooms_overlap. rewrite Hc. now destruct (Room.position room1).
Qed.

Lemma pairwise_disjoint_ordered (rooms : list Room.t) :
  pairwise_disjoint fadd rooms ->
  ForallOrdPairs (fun a b => _rooms_overlap fadd a b = false) rooms.
Proof.
  induction rooms as [|a l IH]; intros Hpd; constructor.
  - apply List.Forall_forall. intros b Hb.
    apply In_nth_error in Hb as [j Hj].
    apply (Hpd 0%nat (S j) a b); [lia | reflexivity | exact Hj].
  - apply IH. intros i j b c Hij Hi Hj.
    apply (Hpd (S i) (S j) b c); [lia | exact Hi | exact Hj].
Qed.

(** X1.  The overlap check of the validator reports nothing exactly when
    no two rooms at different places of the list overlap. *)
Theorem _check_overlaps_nil_iff (rooms : list Room.t) :
  _check_overlaps fadd rooms = [] <-> pairwise_disjoint fadd rooms.
Proof.
  split.
  - intros Hnil. apply pairwise_disjoint_of_ordered.
    induction rooms as [|a l IH]; constructor.
    + apply List.Forall_forall. intros b Hb. simpl in Hnil.
      destruct (Room.position a) as [pa|] eqn:Ha.
      * apply app_eq_nil in Hnil as [Hnil _].
        now apply (overlaps_with_nil_inv a l).
      * unfold _rooms_overlap. now rewrite Ha.
    + apply IH. simpl in Hnil.
      destruct (Room.position a); [| assumption].
      now apply app_eq_nil in Hnil as [_ Hnil].
  - intros Hpd. now apply _check_overlaps_nil, pairwise_disjoint_ordered.
Qed.

(** X2.  The bounds check reports nothing exactly when every positioned
    room ends at or before the far boundaries of the space. *)
Theorem _check_bounds_nil_iff (space : Space.t) (rooms : list Room.t) :
  _check_bounds fadd space rooms = [] <-> Forall (within_far_bounds fadd space) rooms.
Proof.
  induction rooms as [|r l IH]; simpl.
  - split; [constructor | reflexivity].
  - split.
    + intros Hnil. apply app_eq_nil in Hnil as [Hr Hl].
      constructor; [| now apply IH].
      intros p Hp. unfold bounds_of_room in Hr. rewrite Hp in Hr.
      cbv zeta in Hr. unfold Qgtb in Hr.
      destruct (Qltb _ _) eqn:Hx in Hr; [discriminate |].
      destruct (Qltb _ _) eqn:Hy in Hr; [discriminate |].
      apply Qltb_ge in Hx, Hy. now split.
    + intros Hall. inversion Hall as [|r' l' Hr Hl]; subst.
      rewrite (proj2 IH Hl), app_nil_r.
      unfold bounds_of_room. destruct (Room.position r) as [p|] eqn:Hp;
        [| reflexivity].
      destruct (Hr p Hp) as [Hx Hy]. unfold Qgtb.
      apply Qltb_ge in Hx, Hy. now rewrite Hx, Hy.
Qed.

Lemma overlaps_with_positioned (room1 : Room.t) (later : list Room.t) :
  overlaps_with fadd room1 later = overlaps_with fadd room1 (List.filter positioned later).
Proof.
  induction later as [|b l IH]; simpl; [reflexivity |].
  unfold positioned at 1.
  destruct (Room.position b) as [pb|] eqn:Hb; [| exact IH].
  simpl. rewrite Hb, IH. reflexivity.
Qed.

(** X3.  Rooms without a position do not enter the geometric checks:
    dropping them from the list changes neither the bounds messages nor
    the overlap messages. *)
Theorem geometric_checks_skip_unpositioned (space : Space.t) (rooms : list Room.t) :
  _check_bounds fadd space rooms = _check_bounds fadd space (List.filter positioned rooms) /\
  _check_overlaps fadd rooms = _check_overlaps fadd (List.filter positioned rooms).
Proof.
  split.
  - induction rooms as [|r l IH]; simpl; [reflexivity |].
    unfold positioned at 1, bounds_of_room at 1.
    destruct (Room.position r) as [p|] eqn:Hp; simpl.
    + rewrite <- IH. unfold bounds_of_room. now rewrite Hp.
    + exact IH.
  - induction rooms as [|r l IH]; simpl; [reflexivity |].
    unfold positioned at 1.
    destruct (Room.position r) as [p|] eqn:Hp; simpl.
    + rewrite Hp, <- IH, <- overlaps_with_positioned. reflexivity.
    + exact IH.
Qed.

(** X4.  The collision test of the optimizer is the overlap test of the
    validator against some placed room: [_has_overlap] holds iff
    [_rooms_overlap] does for one of the placed rooms.  A room without a
    position collides with nothing. *)
Theorem _has_overlap_iff (room : Room.t) (placed_rooms : list Room.t) :
  (_has_overlap fadd room placed_rooms = true <->
   exists placed, In placed placed_rooms /\ _rooms_overlap fadd room placed = true) /\
  (Room.position room = None -> _has_overlap fadd room placed_rooms = false).
Proof.
  split.
  - rewrite _has_overlap_existsb. apply existsb_exists.
  - intros Hnone. unfold _has_overlap. now rewrite Hnone.
Qed.

Lemma custom_loop_recognized (pow_half : Q -> Q) (rooms : list Room.t)
                             (cs : list Constraint.t) (acc : list Violation) :
  custom_loop pow_half rooms cs acc
  = custom_loop pow_half rooms (List.filter recognized cs) acc.
Proof.
  revert acc. induction cs as [|c cs IH]; intros acc; simpl; [reflexivity |].
  unfold recognized at 1, check_constraint at 1.
  destruct (String.eqb (Constraint.type c) "min_distance") eqn:Emin; simpl.
  - unfold check_constraint. rewrite Emin.
    destruct (_check_min_distance pow_half rooms c); simpl; auto.
  - destruct (String.eqb (Constraint.type c) "adjacency") eqn:Eadj; simpl.
    + unfold check_constraint. rewrite Emin, Eadj.
      destruct (_check_adjacency pow_half rooms c); simpl; auto.
    + rewrite app_nil_r. apply IH.
Qed.

(** X5.  Constraints of a type other than "min_distance" and "adjacency"
    are ignored: the validator gives the same outcome when they are
    removed, and when the space has no constraint of the two types it
    returns the bounds messages followed by the overlap messages. *)
Theorem unrecognized_constraints_ignored
    (pow_half : Q -> Q) (space : Space.t) (rooms : list Room.t) :
  validate_layout fadd pow_half space rooms
  = validate_layout fadd pow_half
      (Space.mk (Space.dimensions space) (Space.rooms space)
                (List.filter recognized (Space.constraints space)))
      rooms /\
  (Forall (fun c => recognized c = false) (Space.constraints space) ->
   validate_layout fadd pow_half space rooms
   = Ok (_check_bounds fadd space rooms ++ _check_overlaps fadd rooms)).
Proof.
  split.
  - unfold validate_layout, _check_custom_constraints. simpl.
    now rewrite custom_loop_recognized.
  - intros Hall. unfold validate_layout, _check_custom_constraints.
    rewrite custom_loop_recognized.
    assert (List.filter recognized (Space.constraints space) = []) as ->.
    { apply filter_none. now apply List.Forall_forall. }
    simpl. now rewrite app_nil_r.
Qed.

Lemma check_constraint_shape (pow_half : Q -> Q) (rooms : list Room.t)
                             (c : Constraint.t) (vs : list Violation) :
  check_constraint pow_half rooms c = Ok vs ->
  Forall is_custom vs /\
  (List.length vs <= if recognized c then 1 else 0)%nat.
Proof.
  unfold check_constraint, recognized, _check_min_distance, _check_adjacency.
  destruct (String.eqb (Constraint.type c) "min_distance"); simpl.
  - destruct (List.find _ rooms) as [r1|]; [| intros [= <-]; auto].
    destruct (List.find _ rooms) as [r2|]; [| intros [= <-]; auto].
    destruct (Room.position r1); [| intros [= <-]; auto].
    destruct (Room.position r2); [| intros [= <-]; auto].
    destruct (default _ _); try discriminate.
    destruct (xlt _ _); intros [= <-]; simpl; auto.
    split; [repeat constructor | lia].
  - destruct (String.eqb (Constraint.type c) "adjacency"); simpl;
      [| intros [= <-]; auto].
    destruct (List.find _ rooms) as [r1|]; [| intros [= <-]; auto].
    destruct (List.find _ rooms) as [r2|]; [| intros [= <-]; auto].
    destruct (Room.position r1); [| intros [= <-]; auto].
    destruct (Room.position r2); [| intros [= <-]; auto].
    destruct (default _ _); try discriminate.
    destruct (xgt _ _); intros [= <-]; simpl; auto.
    split; [repeat constructor | lia].
Qed.

Lemma custom_loop_shape (pow_half : Q -> Q) (rooms : list Room.t)
                        (cs : list Constraint.t) (acc vs : list Violation) :
  custom_loop pow_half rooms cs acc = Ok vs ->
  exists custom,
    vs = acc ++ custom /\ Forall is_custom custom /\
    (List.length custom <= List.length (List.filter recognized cs))%nat.
Proof.
  revert acc. induction cs as [|c cs IH]; intros acc; simpl.
  - intros [= <-]. exists []. rewrite app_nil_r. auto.
  - intros Hvs. apply bind_Ok in Hvs as (new & Hc & Hvs).
    apply check_constraint_shape in Hc as [Hkind Hlen].
    apply IH in Hvs as (custom & -> & Hcustom & Hlen').
    exists (new ++ custom). rewrite app_assoc. split; [reflexivity |].
    split; [now apply List.Forall_app |].
    rewrite length_app. destruct (recognized c); simpl in *; lia.
Qed.

(** X6.  What the validator returns is the bounds messages, then the
    overlap messages, then the messages of the custom constraints; of the
    latter there is at most one for each constraint of a known type. *)
Theorem validate_layout_shape (pow_half : Q -> Q) (space : Space.t)
                              (rooms : list Room.t) (vs : list Violation) :
  validate_layout fadd pow_half space rooms = Ok vs ->
  exists custom,
    vs = _check_bounds fadd space rooms ++ _check_overlaps fadd rooms ++ custom /\
    Forall is_custom custom /\
    (List.length custom
     <= List.length (List.filter recognized (Space.constraints space)))%nat.
Proof.
  unfold validate_layout, _check_custom_constraints. intros Hvs.
  apply bind_Ok in Hvs as (custom & Hloop & [= <-]).
  apply custom_loop_shape in Hloop as (custom' & -> & Hkind & Hlen).
  exists custom'. simpl. rewrite <- app_assoc. auto.
Qed.

(** X7.  A constraint check raises [TypeError] exactly when both rooms are
    found and positioned and the bound is present but not a number; the
    bound of a skipped constraint is never looked at. *)
Theorem constraint_check_TypeError_iff
    (pow_half : Q -> Q) (rooms : list Room.t) (c : Constraint.t) :
  let both_positioned :=
    exists r1 r2,
      List.find (id_is (Constraint.params c !! "room1")) rooms = Some r1 /\
      List.find (id_is (Constraint.params c !! "room2")) rooms = Some r2 /\
      positioned r1 = true /\ positioned r2 = true in
  (_check_min_distance pow_half rooms c = TypeError <->
   both_positioned /\ not_a_number (Constraint.params c !! "distance")) /\
  (_check_adjacency pow_half rooms c = TypeError <->
   both_positioned /\ not_a_number (Constraint.params c !! "max_distance")).
Proof.
  intros both_positioned. subst both_positioned.
  unfold _check_min_distance, _check_adjacency, positioned, not_a_number.
  destruct (List.find (id_is (Constraint.params c !! "room1")) rooms) as [r1|];
    [| split; split; [discriminate | intros [(? & ? & ? & _) _]; discriminate
                     | discriminate | intros [(? & ? & ? & _) _]; discriminate]].
  destruct (List.find (id_is (Constraint.params c !! "room2")) rooms) as [r2|];
    [| split; split; [discriminate | intros [(? & ? & _ & ? & _) _]; discriminate
                     | discriminate | intros [(? & ? & _ & ? & _) _]; discriminate]].
  destruct (Room.position r1) as [p1|] eqn:Hp1.
  2:{ split; split; try discriminate;
        intros [(a & b & [= <-] & [= <-] & Ha & _) _];
        rewrite Hp1 in Ha; discriminate. }
  destruct (Room.position r2) as [p2|] eqn:Hp2.
  2:{ split; split; try discriminate;
        intros [(a & b & [= <-] & [= <-] & _ & Hb) _];
        rewrite Hp2 in Hb; discriminate. }
  assert (exists a b, Some r1 = Some a /\ Some r2 = Some b /\
            match Room.position a with Some _ => true | None => false end = true /\
            match Room.position b with Some _ => true | None => false end = true)
    as Hboth.
  { exists r1, r2. rewrite Hp1, Hp2. auto. }
  split.
  - destruct (Constraint.params c !! "distance") as [[| s | d |]|]; simpl;
      split; try discriminate; try tauto; intros; auto.
  - destruct (Constraint.params c !! "max_distance") as [[| s | d |]|]; simpl;
      split; try discriminate; try tauto; intros; auto.
Qed.

(** X8.  When [pow_half] respects equality of rationals, the distance of
    two positioned rooms does not depend on their order, so neither does
    the verdict of a comparison with a bound. *)
Theorem _calculate_distance_sym (pow_half : Q -> Q) (r1 r2 : Room.t) :
  (forall u v, u == v -> pow_half u == pow_half v) ->
  positioned r1 = true -> positioned r2 = true ->
  exists d12 d21,
    _calculate_distance pow_half r1 r2 = Fin d12 /\
    _calculate_distance pow_half r2 r1 = Fin d21 /\
    d12 == d21 /\
    forall bound,
      xlt (Fin d12) bound = xlt (Fin d21) bound /\
      xgt (Fin d12) bound = xgt (Fin d21) bound.
Proof.
  intros Hpow H1 H2. unfold positioned, _calculate_distance in *.
  destruct (Room.position r1) as [p1|]; [| discriminate].
  destruct (Room.position r2) as [p2|]; [| discriminate].
  eexists. eexists. split; [reflexivity |]. split; [reflexivity |].
  match goal with |- pow_half ?u == pow_half ?v /\ _ =>
    assert (pow_half u == pow_half v) as Heq by (apply Hpow; ring)
  end.
  split; [exact Heq |]. intros bound. simpl. unfold Qltb.
  now rewrite Heq.
Qed.

Lemma sqrt_floor_proper (u v : Q) : u == v -> sqrt_floor u == sqrt_floor v.
Proof. unfold sqrt_floor. intros Heq. now rewrite Heq. Qed.

(** X9.  A [min_distance] constraint that names no distance compares with
    the default 0, so it never yields a message as long as [pow_half]
    returns nothing negative. *)
Theorem min_distance_default_is_vacuous
    (pow_half : Q -> Q) (rooms : list Room.t) (c : Constraint.t) :
  (forall v, 0 <= pow_half v) ->
  Constraint.params c !! "distance" = None ->
  _check_min_distance pow_half rooms c = Ok [].
Proof.
  intros Hpos Hnone. unfold _check_min_distance. rewrite Hnone. simpl.
  destruct (List.find _ rooms) as [r1|]; [| reflexivity].
  destruct (List.find _ rooms) as [r2|]; [| reflexivity].
  unfold _calculate_distance.
  destruct (Room.position r1); [| reflexivity].
  destruct (Room.position r2); [| reflexivity].
  simpl. now rewrite (proj2 (Qltb_ge _ _) (Hpos _)).
Qed.

Lemma sqrt_floor_nonneg (v : Q) : 0 <= sqrt_floor v.
Proof.
  unfold sqrt_floor. change 0 with (inject_Z 0). rewrite <- Zle_Qle.
  apply Z.sqrt_nonneg.
Qed.

(** ** Further properties of the optimizer *)

Lemma generate_layout_metadata (pow_half : Q -> Q) (space : Space.t)
                               (fuel : nat) (l : Layout.t) :
  generate_layout fadd pow_half space fuel = Ok l ->
  Layout.metadata l = make_metadata space (Layout.placed_rooms l).
Proof.
  unfold generate_layout. intros Hl.
  apply bind_Ok in Hl as (placed & _ & Hl).
  apply bind_Ok in Hl as (vs & _ & Hl).
  now injection Hl as <-.
Qed.

Lemma generate_layout_custom_only (pow_half : Q -> Q) (space : Space.t)
                                  (fuel : nat) (l : Layout.t) :
  generate_layout fadd pow_half space fuel = Ok l ->
  Forall is_custom (Layout.violations l) /\
  (List.length (Layout.violations l)
   <= List.length (List.filter recognized (Space.constraints space)))%nat.
Proof.
  intros Hl. apply generate_layout_Ok in Hl as (_ & Hplace & Hval & _).
  pose proof (placed_rooms_disjoint _ _ _ _ Hplace) as Hdis.
  pose proof (placed_rooms_inside _ _ _ _ Hplace) as Hin.
  unfold validate_layout, _check_custom_constraints in Hval.
  rewrite (_check_overlaps_nil _ Hdis), (_check_bounds_nil _ _ Hin) in Hval.
  apply bind_Ok in Hval as (custom & Hloop & [= Hvs]).
  apply custom_loop_shape in Hloop as (custom' & -> & Hkind & Hlen).
  simpl in Hvs. rewrite <- Hvs. auto.
Qed.

(** X10.  A layout that [generate_layout] returns never carries a bounds
    or an overlap message: its violations are messages of the custom
    constraints, at most one for each constraint of a known type.  With
    no such constraint the layout is valid. *)
Theorem generate_layout_violations_custom
    (pow_half : Q -> Q) (space : Space.t) (fuel : nat) (l : Layout.t) :
  generate_layout fadd pow_half space fuel = Ok l ->
  Forall is_custom (Layout.violations l) /\
  (List.length (Layout.violations l)
   <= List.length (List.filter recognized (Space.constraints space)))%nat /\
  (List.filter recognized (Space.constraints space) = [] ->
   Layout.violations l = [] /\ Layout.is_valid l = true).
Proof.
  intros Hl. apply generate_layout_custom_only in Hl as [Hkind Hlen].
  split; [assumption |]. split; [assumption |].
  intros Hnone. rewrite Hnone in Hlen. simpl in Hlen.
  unfold Layout.is_valid.
  destruct (Layout.violations l); [auto | simpl in Hlen; lia].
Qed.

Lemma Qlen_nonneg {A : Type} (l : list A) : 0 <= Qlen l.
Proof.
  unfold Qlen. change 0 with (inject_Z 0). rewrite <- Zle_Qle. lia.
Qed.

Lemma Qlen_le {A B : Type} (l1 : list A) (l2 : list B) :
  (List.length l1 <= List.length l2)%nat -> Qlen l1 <= Qlen l2.
Proof. unfold Qlen. intros Hle. rewrite <- Zle_Qle. lia. Qed.

Lemma Qlen_cons {A : Type} (a : A) (l : list A) : Qlen (a :: l) == Qlen l + 1.
Proof.
  unfold Qlen. simpl List.length. rewrite Nat2Z.inj_succ, <- Z.add_1_r.
  now rewrite inject_Z_plus.
Qed.

Lemma Qlen_pos {A : Type} (a : A) (l : list A) : 0 < Qlen (a :: l).
Proof. pose proof (Qlen_nonneg l). rewrite Qlen_cons. lra. Qed.

Lemma placed_rooms_count (space : Space.t) (fuel : nat) (out : list Room.t) :
  place_rooms fadd space fuel (sorted_desc Room.priority (Space.rooms space)) [] = Ok out ->
  (List.length out <= List.length (Space.rooms space))%nat.
Proof.
  intros Hplace.
  destruct (place_rooms_sublist space Room.priority fuel
              (fun _ _ => eq_refl) _ _ _ Hplace) as (chosen & -> & Hsub).
  apply sublist_length in Hsub. simpl. rewrite !length_map in Hsub.
  rewrite (Permutation_length (sorted_desc_perm Room.priority (Space.rooms space)))
    in Hsub.
  exact Hsub.
Qed.

Lemma placement_ratio_bounds (space : Space.t) (placed_rooms : list Room.t) :
  (List.length placed_rooms <= List.length (Space.rooms space))%nat ->
  0 <= placement_ratio space placed_rooms <= 1.
Proof.
  intros Hle. unfold placement_ratio.
  destruct (Space.rooms space) as [|t ts] eqn:Hrooms; [lra |].
  pose proof (Qlen_pos t ts) as Hpos.
  pose proof (Qlen_nonneg placed_rooms) as Hnn.
  pose proof (Qlen_le placed_rooms (t :: ts) Hle) as Hq.
  split.
  - apply Qle_shift_div_l; [assumption | lra].
  - apply Qle_shift_div_r; [assumption | lra].
Qed.

(** X11.  The layout never holds more rooms than were requested, and its
    metadata say so: "total_rooms" and "placed_rooms" are the two
    lengths, "placement_rate" is their ratio (0 when nothing was
    requested), a number between 0 and 1, and "algorithm" is
    "greedy_priority". *)
Theorem generate_layout_metadata_consistent
    (pow_half : Q -> Q) (space : Space.t) (fuel : nat) (l : Layout.t) :
  generate_layout fadd pow_half space fuel = Ok l ->
  (List.length (Layout.placed_rooms l) <= List.length (Space.rooms space))%nat /\
  Layout.metadata l !! "total_rooms" = Some (ANum (Qlen (Space.rooms space))) /\
  Layout.metadata l !! "placed_rooms"
    = Some (ANum (Qlen (Layout.placed_rooms l))) /\
  Layout.metadata l !! "placement_rate"
    = Some (ANum (placement_ratio space (Layout.placed_rooms l))) /\
  0 <= placement_ratio space (Layout.placed_rooms l) <= 1 /\
  Layout.metadata l !! "algorithm" = Some (AStr "greedy_priority").
Proof.
  intros Hl. rewrite (generate_layout_metadata _ _ _ _ Hl).
  apply generate_layout_Ok in Hl as (_ & Hplace & _).
  apply placed_rooms_count in Hplace.
  split; [assumption |]. unfold make_metadata, placement_ratio.
  repeat split; try (now simplify_map_eq).
  - now apply placement_ratio_bounds.
  - now apply placement_ratio_bounds.
Qed.

(** *** Sums of corner distances *)

Lemma corner_sum_bounds (M : Q) (rooms : list Room.t) (a : Q) :
  Forall (fun r => exists p, Room.position r = Some p /\
                             0 <= Position.x p + Position.y p <= M) rooms ->
  a <= fold_left Qplus
         (flat_map (fun r => match Room.position r with
                             | Some p => [Position.x p + Position.y p]
                             | None => []
                             end) rooms) a
  /\ fold_left Qplus
       (flat_map (fun r => match Room.position r with
                           | Some p => [Position.x p + Position.y p]
                           | None => []
                           end) rooms) a
     <= a + Qlen rooms * M.
Proof.
  intros Hall. revert a.
  induction Hall as [|r l (p & Hp & Hlo & Hhi) Hl IH]; intros a.
  - simpl. unfold Qlen. simpl. change (inject_Z (Z.of_nat 0)) with 0. lra.
  - cbn [flat_map]. rewrite Hp. cbn [app fold_left].
    destruct (IH (a + (Position.x p + Position.y p))) as [IH1 IH2].
    pose proof (Qlen_cons r l) as Hlen. pose proof (Qlen_nonneg l) as Hnn.
    revert IH1 IH2. generalize (fold_left Qplus
         (flat_map (fun r => match Room.position r with
                             | Some p => [Position.x p + Position.y p]
                             | None => []
                             end) l) (a + (Position.x p + Position.y p))).
    intros total IH1 IH2. rewrite Hlen. split; [lra |].
    assert ((Qlen l + 1) * M == Qlen l * M + M) as -> by ring.
    revert IH2. generalize (Qlen l * M). intros nM IH2. lra.
Qed.

Lemma inside_corner (space : Space.t) (r : Room.t) :
  float_addition fadd ->
  Dimensions.valid (Room.dimensions r) -> inside fadd space r ->
  exists p, Room.position r = Some p /\
            0 <= Position.x p + Position.y p
              <= Dimensions.width (Space.dimensions space)
                 + Dimensions.height (Space.dimensions space).
Proof.
  intros (_ & Hge & _) [Hw Hh] (p & Hp & Hx & Hy & Hxw & Hyh). exists p.
  split; [assumption |].
  pose proof (Hge (Position.x p) (Dimensions.width (Room.dimensions r))).
  pose proof (Hge (Position.y p) (Dimensions.height (Room.dimensions r))).
  lra.
Qed.

Lemma placed_rooms_valid_dims (space : Space.t) (fuel : nat) (out : list Room.t) :
  Forall Room.valid (Space.rooms space) ->
  place_rooms fadd space fuel (sorted_desc Room.priority (Space.rooms space)) [] = Ok out ->
  Forall (fun r => Dimensions.valid (Room.dimensions r)) out.
Proof.
  intros Hvalid Hplace. apply placed_rooms_copies in Hplace.
  eapply List.Forall_impl; [| exact Hplace]. simpl.
  intros r (t & Hin & _ & _ & Hdims & _). rewrite Hdims.
  apply sorted_desc_In in Hin.
  rewrite List.Forall_forall in Hvalid. now apply Hvalid.
Qed.

Lemma compactness_bounds (space : Space.t) (r : Room.t) (rs : list Room.t) :
  float_addition fadd ->
  Dimensions.valid (Space.dimensions space) ->
  Forall (inside fadd space) (r :: rs) ->
  Forall (fun r' => Dimensions.valid (Room.dimensions r')) (r :: rs) ->
  0 <= Qsum (flat_map (fun r' => match Room.position r' with
                                 | Some p => [Position.x p + Position.y p]
                                 | None => []
                                 end) (r :: rs))
       / Qlen (r :: rs)
       / (Dimensions.width (Space.dimensions space)
          + Dimensions.height (Space.dimensions space))
    <= 1.
Proof.
  intros Hadd Hdims Hinside Hvd.
  set (M := Dimensions.width (Space.dimensions space)
            + Dimensions.height (Space.dimensions space)).
  assert (0 < M) as HM by (destruct Hdims; unfold M; lra).
  assert (Forall (fun r' => exists p, Room.position r' = Some p /\
                     0 <= Position.x p + Position.y p <= M) (r :: rs)) as Hc.
  { apply List.Forall_forall. intros r' Hr'.
    rewrite List.Forall_forall in Hinside, Hvd.
    apply (inside_corner space r'); auto. }
  destruct (corner_sum_bounds M (r :: rs) 0 Hc) as [Hlo Hhi].
  unfold Qsum. revert Hlo Hhi.
  generalize (fold_left Qplus
                (flat_map (fun r' => match Room.position r' with
                                     | Some p => [Position.x p + Position.y p]
                                     | None => []
                                     end) (r :: rs)) 0).
  intros total Hlo Hhi.
  pose proof (Qlen_pos r rs) as Hn.
  split.
  - apply Qle_shift_div_l; [assumption |].
    apply Qle_shift_div_l; [assumption | lra].
  - apply Qle_shift_div_r; [assumption |].
    apply Qle_shift_div_r; [assumption |]. lra.
Qed.

(** X12.  In a valid space, when a sum of non-negative numbers is at
    least each of them, the score lies within 30 of its base
    [100 * placement ratio - 10 * number of violations]: the utilization
    bonus is 0, 10 or 20 and the compactness bonus lies between 0 and
    10.  So the score never exceeds 130. *)
Theorem generate_layout_score_bounds
    (pow_half : Q -> Q) (space : Space.t) (fuel : nat) (l : Layout.t) :
  float_addition fadd ->
  Space.valid space ->
  generate_layout fadd pow_half space fuel = Ok l ->
  let base := 100 * placement_ratio space (Layout.placed_rooms l)
              - 10 * Qlen (Layout.violations l) in
  base <= Layout.score l /\ Layout.score l <= base + 30 /\
  Layout.score l <= 130.
Proof.
  intros Hadd [Hdims Hrooms] Hl base.
  apply generate_layout_Ok in Hl as (_ & Hplace & _ & Hscore).
  pose proof (placed_rooms_count _ _ _ Hplace) as Hcount.
  pose proof (placement_ratio_bounds space _ Hcount) as Hratio.
  pose proof (Qlen_nonneg (Layout.violations l)) as Hviol.
  pose proof (placed_rooms_inside _ _ _ _ Hplace) as Hinside.
  pose proof (placed_rooms_valid_dims _ _ _ Hrooms Hplace) as Hvd.
  assert (base <= Layout.score l /\ Layout.score l <= base + 30) as Hb.
  { rewrite Hscore. unfold _calculate_score. cbv zeta.
    fold (placement_ratio space (Layout.placed_rooms l)).
    unfold base. clear base.
    revert Hratio Hviol.
    generalize (placement_ratio space (Layout.placed_rooms l)).
    generalize (Qlen (Layout.violations l)).
    intros nv ratio Hratio Hviol.
    destruct (Layout.placed_rooms l) as [|r rs] eqn:Hplaced.
    - destruct (_ && _); [lra |]. destruct (Qgtb _ _); lra.
    - pose proof (compactness_bounds space r rs Hadd Hdims Hinside Hvd) as Hfrac.
      revert Hfrac.
      match goal with |- 0 <= ?f <= 1 -> _ => generalize f end.
      intros frac Hfrac.
      destruct (_ && _); [lra |]. destruct (Qgtb _ _); lra. }
  destruct Hb as [Hb1 Hb2]. repeat split; try assumption.
  unfold base in Hb2. lra.
Qed.

Lemma custom_loop_no_rooms (pow_half : Q -> Q) (cs : list Constraint.t)
                           (acc : list Violation) :
  custom_loop pow_half [] cs acc = Ok acc.
Proof.
  revert acc. induction cs as [|c cs IH]; intros acc; simpl; [reflexivity |].
  assert (check_constraint pow_half [] c = Ok []) as ->.
  { unfold check_constraint, _check_min_distance, _check_adjacency. simpl.
    destruct (String.eqb (Constraint.type c) "min_distance"); [reflexivity |].
    now destruct (String.eqb (Constraint.type c) "adjacency"). }
  simpl. rewrite app_nil_r. apply IH.
Qed.

(** X13.  When no room is requested, [generate_layout] returns at once,
    with any loop budget and whatever the constraints are (no bound is
    ever compared): nothing is placed, there is no violation, the score
    is 0 and the placement rate is 0. *)
Theorem generate_layout_no_rooms
    (pow_half : Q -> Q) (space : Space.t) (fuel : nat) :
  Space.rooms space = [] ->
  exists l,
    generate_layout fadd pow_half space fuel = Ok l /\
    Layout.placed_rooms l = [] /\
    Layout.violations l = [] /\
    Layout.is_valid l = true /\
    Layout.score l == 0 /\
    Layout.metadata l !! "placement_rate" = Some (ANum 0).
Proof.
  intros Hrooms. unfold generate_layout. rewrite Hrooms. simpl.
  unfold validate_layout, _check_custom_constraints.
  rewrite custom_loop_no_rooms. simpl.
  eexists. split; [reflexivity |]. simpl.
  repeat split.
  - unfold _calculate_score. rewrite Hrooms. cbv zeta. simpl map.
    assert (forall u, u == 0 ->
              (if Qle_bool (6 # 10) u && Qle_bool u (8 # 10)
               then 0 + 0 * 100 - Qlen (@nil Violation) * 10 + 20
               else if Qgtb u (8 # 10)
                    then 0 + 0 * 100 - Qlen (@nil Violation) * 10 + 10
                    else 0 + 0 * 100 - Qlen (@nil Violation) * 10) == 0) as Hu.
    { intros u Hu.
      destruct (Qle_bool (6 # 10) u) eqn:H6.
      - apply Qle_bool_iff in H6. lra.
      - simpl. destruct (Qgtb u (8 # 10)) eqn:H8.
        + apply Qltb_lt in H8. lra.
        + reflexivity. }
    apply Hu. destruct (Qgtb _ _); [| reflexivity].
    unfold Qsum. simpl. unfold Qdiv. ring.
  - unfold make_metadata. rewrite Hrooms. now simplify_map_eq.
Qed.

(** X14.  A room that does not fit in the space is never placed: every
    placed room fits, and when none of the requested rooms fits the
    layout is empty; a sum of non-negative numbers is taken to be at
    least each of them. *)
Theorem oversized_rooms_never_placed
    (pow_half : Q -> Q) (space : Space.t) (fuel : nat) (l : Layout.t) :
  float_addition fadd ->
  generate_layout fadd pow_half space fuel = Ok l ->
  Forall (fits space) (Layout.placed_rooms l) /\
  (Forall (fun t => ~ fits space t) (Space.rooms space) ->
   Layout.placed_rooms l = []).
Proof.
  intros (_ & _ & Hge) Hl. apply generate_layout_Ok in Hl as (_ & Hplace & _).
  pose proof (placed_rooms_inside _ _ _ _ Hplace) as Hinside.
  pose proof (placed_rooms_copies _ _ _ _ Hplace) as Hcopies.
  assert (Forall (fits space) (Layout.placed_rooms l)) as Hfits.
  { eapply List.Forall_impl; [| exact Hinside]. simpl.
    intros r (p & _ & Hx & Hy & Hxw & Hyh). unfold fits.
    pose proof (Hge _ (Dimensions.width (Room.dimensions r)) Hx).
    pose proof (Hge _ (Dimensions.height (Room.dimensions r)) Hy).
    lra. }
  split; [exact Hfits |].
  intros Hnone. destruct (Layout.placed_rooms l) as [|r rs]; [reflexivity |].
  exfalso. inversion Hfits as [|r' rs' Hr _]; subst.
  inversion Hcopies as [|r' rs' (t & Hin & _ & _ & Hdims & _) _]; subst.
  apply sorted_desc_In in Hin.
  rewrite List.Forall_forall in Hnone. apply (Hnone t Hin).
  unfold fits in *. now rewrite <- Hdims.
Qed.

Lemma grid_line_on_grid (fuel : nat) (e l c v : Q) :
  In v (grid_line fadd fuel e l c) ->
  exists k : nat, v == c + inject_Z (Z.of_nat k) * grid_step.
Proof.
  revert c. induction fuel as [|f IH]; intros c; simpl; [intros [] |].
  destruct (Qle_bool (fadd c e) l); [| intros []].
  intros [<- | Hin].
  - exists 0%nat. change (inject_Z (Z.of_nat 0)) with 0. ring.
  - apply IH in Hin as [k Hk]. exists (S k).
    rewrite Hk, Nat2Z.inj_succ, <- Z.add_1_r, inject_Z_plus.
    change (inject_Z 1) with 1. ring.
Qed.

Lemma scanned_on_grid (fuel : nat) (space : Space.t) (room : Room.t)
                      (p : Position.t) :
  In p (scanned fadd fuel space room) ->
  on_grid (Position.x p) /\ on_grid (Position.y p).
Proof.
  unfold scanned. cbv zeta. rewrite in_flat_map.
  intros (cy & Hy & Hp). apply in_map_iff in Hp as (cx & <- & Hx).
  apply grid_line_on_grid in Hx as [kx Hx], Hy as [ky Hy]. simpl.
  split; [exists kx | exists ky]; [rewrite Hx | rewrite Hy]; ring.
Qed.

(** X15.  Every placed room sits on the search grid: both coordinates of
    its position are whole multiples of the step 0.5. *)
Theorem placed_rooms_on_grid
    (pow_half : Q -> Q) (space : Space.t) (fuel : nat) (l : Layout.t) :
  generate_layout fadd pow_half space fuel = Ok l ->
  Forall (fun r => exists p, Room.position r = Some p /\
                             on_grid (Position.x p) /\ on_grid (Position.y p))
         (Layout.placed_rooms l).
Proof.
  intros Hl. apply generate_layout_Ok in Hl as (_ & Hplace & _).
  revert Hplace.
  apply (place_rooms_invariant space
           (Forall (fun r => exists p, Room.position r = Some p /\
                       on_grid (Position.x p) /\ on_grid (Position.y p)))
           fuel (sorted_desc Room.priority (Space.rooms space)));
    [| auto | constructor].
  intros room placed_rooms p _ Hinv Hfind.
  apply _find_best_position_Some in Hfind as [Hcand _].
  apply scanned_on_grid in Hcand.
  apply List.Forall_app. split; [assumption |].
  constructor; [| constructor]. exists p. simpl. tauto.
Qed.

Lemma sorted_desc_head {A : Type} (key : A -> Z) (a : A) (rest : list A) :
  Forall (fun b => (key b <= key a)%Z) rest ->
  sorted_desc key (a :: rest) = a :: sorted_desc key rest.
Proof.
  intros Hall. simpl.
  destruct (sorted_desc key rest) as [|b tl] eqn:Hs; [reflexivity |].
  simpl. assert (In b rest) as Hb.
  { apply (sorted_desc_In key). rewrite Hs. now left. }
  rewrite List.Forall_forall in Hall. specialize (Hall b Hb).
  assert ((key a <? key b)%Z = false) as -> by (apply Z.ltb_ge; lia).
  reflexivity.
Qed.

Lemma sorted_desc_fixed {A : Type} (key : A -> Z) (l : list A) :
  StronglySorted (fun u v => (key v <= key u)%Z) l -> sorted_desc key l = l.
Proof.
  induction 1 as [|a l Hl IH Ha]; [reflexivity |].
  rewrite sorted_desc_head by exact Ha. now rewrite IH.
Qed.

(** X16.  Whatever else is requested, when the first listed room has the
    highest priority (ties included) and fits in the space, it is the
    first placed room and stands at the origin; adding to 0 is all the
    addition is asked for. *)
Theorem first_room_goes_to_origin
    (pow_half : Q -> Q) (space : Space.t) (fuel : nat) (l : Layout.t)
    (A : Room.t) (rest : list Room.t) :
  (forall b, fadd 0 b == b) ->
  Space.rooms space = A :: rest ->
  Forall (fun r => (Room.priority r <= Room.priority A)%Z) rest ->
  fits space A ->
  generate_layout fadd pow_half space fuel = Ok l ->
  exists others,
    Layout.placed_rooms l = with_position A (Position.mk 0 0) :: others.
Proof.
  intros Hzero Hrooms Hprio [Hw Hh] Hl.
  apply generate_layout_Ok in Hl as (_ & Hplace & _).
  rewrite Hrooms, (sorted_desc_head Room.priority A rest Hprio) in Hplace.
  simpl in Hplace. apply bind_Ok in Hplace as (r & Hfind & Hplace).
  apply first_room_at_origin in Hfind; try assumption. subst r.
  destruct (place_rooms_sublist space Room.priority fuel
              (fun _ _ => eq_refl) _ _ _ Hplace) as (chosen & -> & _).
  now exists chosen.
Qed.

(** X17.  When the rooms are listed in descending order of priority, for
    instance when all have the default priority, sorting changes
    nothing: they are attempted in the order given. *)
Theorem descending_rooms_keep_their_order
    (pow_half : Q -> Q) (space : Space.t) (fuel : nat) (l : Layout.t) :
  StronglySorted (fun a b => (Room.priority b <= Room.priority a)%Z)
                 (Space.rooms space) ->
  generate_layout fadd pow_half space fuel = Ok l ->
  sorted_desc Room.priority (Space.rooms space) = Space.rooms space /\
  place_rooms fadd space fuel (Space.rooms space) [] = Ok (Layout.placed_rooms l).
Proof.
  intros Hsorted Hl.
  pose proof (sorted_desc_fixed Room.priority _ Hsorted) as Hfix.
  split; [exact Hfix |].
  apply generate_layout_Ok in Hl as (_ & Hplace & _).
  now rewrite Hfix in Hplace.
Qed.

(** X18.  Placing never builds an invalid room: in a space whose rooms
    pass the model's validation (positive dimensions, priority from 1 to
    10), every placed room passes it too, its position having no
    negative coordinate. *)
Theorem placed_rooms_valid
    (pow_half : Q -> Q) (space : Space.t) (fuel : nat) (l : Layout.t) :
  Forall Room.valid (Space.rooms space) ->
  generate_layout fadd pow_half space fuel = Ok l ->
  Forall Room.valid (Layout.placed_rooms l).
Proof.
  intros Hvalid Hl. apply generate_layout_Ok in Hl as (_ & Hplace & _).
  pose proof (placed_rooms_inside _ _ _ _ Hplace) as Hinside.
  pose proof (placed_rooms_copies _ _ _ _ Hplace) as Hcopies.
  rewrite List.Forall_forall in *. intros r Hr.
  destruct (Hinside r Hr) as (p & Hp & Hx & Hy & _).
  destruct (Hcopies r Hr) as (t & Hin & _ & _ & Hdims & _ & Hprio & _).
  apply sorted_desc_In in Hin.
  destruct (Hvalid t Hin) as (Hd & Hpr & _).
  unfold Room.valid. rewrite Hdims, Hprio, Hp.
  split; [exact Hd |]. split; [exact Hpr |]. now split.
Qed.

(** ** The agent *)

(** X19.  [generate_layout] of the agent raises [ValueError] exactly when
    it is given no space and has no current one; any call that does not
    return leaves the agent unchanged; a call that returns stores the
    layout and keeps the current space, even when another space was
    passed.  So a fresh agent that has just produced a layout from a
    space passed to it still raises [ValueError] when called without
    one, and keeps that layout. *)
Theorem agent_generate_layout_state
    (pow_half : Q -> Q) (fuel : nat)
    (self : SpatialPlanningAgent.t) (space : option Space.t) :
  let (outcome, self') :=
    SpatialPlanningAgent.generate_layout fadd pow_half fuel self space in
  (outcome = ValueError <->
   space = None /\ SpatialPlanningAgent.current_space self = None) /\
  (forall layout,
      outcome = Returned layout ->
      SpatialPlanningAgent.current_layout self' = Some layout /\
      SpatialPlanningAgent.current_space self'
        = SpatialPlanningAgent.current_space self /\
      (forall s, space = Some s -> Layout.space layout = s) /\
      (space = None ->
       SpatialPlanningAgent.current_space self = Some (Layout.space layout))) /\
  ((forall layout, outcome <> Returned layout) -> self' = self) /\
  (self = SpatialPlanningAgent.init ->
   forall layout,
     outcome = Returned layout ->
     SpatialPlanningAgent.generate_layout fadd pow_half fuel self' None
     = (ValueError, self') /\
     SpatialPlanningAgent.current_layout self' = Some layout).
Proof.
  unfold SpatialPlanningAgent.generate_layout.
  destruct space as [s|]; [| destruct (SpatialPlanningAgent.current_space self)
                               as [s|] eqn:Hcur].
  - destruct (generate_layout fadd pow_half s fuel) as [l| |] eqn:Hl.
    + apply generate_layout_Ok in Hl as (Hs & _).
      split; [split; [discriminate | intros [? _]; discriminate] |].
      split; [| split].
      * intros layout [= <-]. simpl. repeat split; congruence.
      * intros Hno. now destruct (Hno l).
      * intros -> layout [= <-]. simpl. auto.
    + split; [split; [discriminate | intros [? _]; discriminate] |].
      repeat split; try discriminate; auto.
    + split; [split; [discriminate | intros [? _]; discriminate] |].
      repeat split; try discriminate; auto.
  - destruct (generate_layout fadd pow_half s fuel) as [l| |] eqn:Hl.
    + apply generate_layout_Ok in Hl as (Hs & _).
      split; [split; [discriminate | intros [_ ?]; discriminate] |].
      split; [| split].
      * intros layout [= <-]. simpl. repeat split; congruence.
      * intros Hno. now destruct (Hno l).
      * intros -> layout _. simpl in Hcur. discriminate.
    + split; [split; [discriminate | intros [_ ?]; discriminate] |].
      repeat split; try discriminate; auto.
    + split; [split; [discriminate | intros [_ ?]; discriminate] |].
      repeat split; try discriminate; auto.
  - split; [split; auto |].
    repeat split; try discriminate; auto.
Qed.

End WithAddition.

(** ** The claims on concrete inputs *)

Lemma demo_space_valid : Space.valid demo_space.
Proof.
  split; [split; reflexivity |].
  repeat constructor; simpl; lia.
Qed.

(** C1, as the spec words it, fails, with the exact addition and with
    that of binary64 alike: in the 10 x 8 space with the 5 x 4 room at
    the origin, the first collision-free candidate for the 4 x 3 room is
    (5, 0), of score -5, while (0, 4), of score -4, is collision-free
    too and is what the search returns. *)
Lemma first_free_is_best_counterexample :
  Forall (fun fadd =>
    (exists q p,
        first_free fadd demo_space bedroom [living_room_placed] = Some q /\
        Position.same q (Position.mk 5 0) /\
        In p (free_candidates fadd demo_space bedroom [living_room_placed]) /\
        Position.same p (Position.mk 0 4) /\
        _score_position q < _score_position p /\
        _find_best_position fadd demo_space 17 bedroom [living_room_placed]
          = Ok (Some p)) /\
    ~ first_free_is_best fadd demo_space bedroom [living_room_placed])
  [Qplus; b64_add].
Proof.
  assert (forall fadd, In fadd [Qplus; b64_add] ->
    exists q p,
      first_free fadd demo_space bedroom [living_room_placed] = Some q /\
      Position.same q (Position.mk 5 0) /\
      In p (free_candidates fadd demo_space bedroom [living_room_placed]) /\
      Position.same p (Position.mk 0 4) /\
      _score_position q < _score_position p /\
      _find_best_position fadd demo_space 17 bedroom [living_room_placed]
        = Ok (Some p)) as Hex.
  { intros fadd [<- | [<- | []]];
      exists (Position.mk (5120 # 1024) 0), (Position.mk 0 (1024 # 256));
      repeat split;
      (apply filter_In; split; [| vm_compute; reflexivity];
       vm_compute; do 104 right; left; reflexivity). }
  apply List.Forall_forall. intros fadd Hin.
  split; [exact (Hex fadd Hin) |].
  destruct (Hex fadd Hin) as (q & p & Hq & _ & Hp & _ & Hlt & _).
  intros Hclaim. destruct (Hclaim q Hq) as [Hmax _].
  specialize (Hmax p Hp). lra.
Qed.

(** C5.  On the 10 x 8 space with the rooms 5 x 4 (priority 9), 4 x 3
    (priority 8) and 3 x 3 (priority 7) and no constraints, all three
    rooms are placed, there is no violation and the layout is valid; the
    utilization is 41 / 80, below 0.6, and the score is 100 for the
    placement plus the compactness bonus 10 * (1 - 3 / 18), strictly
    between 100 and 130.  The sums of the loop guards are all exact here:
    the addition of binary64 gives what the exact one gives. *)
Theorem demo_space_layout (pow_half : Q -> Q) :
  Forall (fun fadd =>
    exists l,
      generate_layout fadd pow_half demo_space (enough_fuel demo_space) = Ok l /\
      map Room.name (Layout.placed_rooms l) = ["Living Room"; "Bedroom"; "Kitchen"] /\
      Forall (fun r => Room.position r <> None) (Layout.placed_rooms l) /\
      Layout.violations l = [] /\
      Layout.is_valid l = true /\
      Qsum (map Room.area (Layout.placed_rooms l)) / Space.area demo_space
        == 41 # 80 /\
      Layout.score l == 100 + 10 * (1 - 3 / 18) /\
      100 < Layout.score l /\ Layout.score l < 130)
  [Qplus; b64_add].
Proof.
  repeat constructor;
    (eexists; split; [vm_compute; reflexivity |]; simpl;
     repeat split; try reflexivity;
     repeat constructor; discriminate).
Qed.

(** *** When the rounding of a sum decides *)

(** In the 2.01 x 1 space the sliver, 0.01 wide, is tried at x = 2.0
    after four rooms of width 0.5.  The exact sum of 2.0 and the float
    0.01 is larger than the float 2.01, the sum the code computes is
    not: the code places the sliver at (2, 0), and the validator, which
    computes the same sum, reports nothing.  With exact sums the sliver
    would be left out. *)
Lemma sliver_space_layout :
  Dimensions.width (Space.dimensions sliver_space) < 2 + b64 (1 # 100) /\
  b64_add 2 (b64 (1 # 100)) == Dimensions.width (Space.dimensions sliver_space) /\
  (exists l,
      generate_layout b64_add no_pow sliver_space (enough_fuel sliver_space)
        = Ok l /\
      map Room.name (Layout.placed_rooms l) = ["R0"; "R1"; "R2"; "R3"; "R4"] /\
      Forall2 (fun r x => exists p, Room.position r = Some p /\
                                    Position.same p (Position.mk x 0))
              (Layout.placed_rooms l) [0; 1 # 2; 1; 3 # 2; 2] /\
      Layout.violations l = [] /\
      Layout.is_valid l = true) /\
  (exists l,
      generate_layout Qplus no_pow sliver_space (enough_fuel sliver_space)
        = Ok l /\
      map Room.name (Layout.placed_rooms l) = ["R0"; "R1"; "R2"; "R3"]).
Proof.
  split; [vm_compute; reflexivity |].
  split; [vm_compute; reflexivity |].
  split.
  - eexists. split; [vm_compute; reflexivity |].
    split; [reflexivity |]. split; [| split; reflexivity].
    repeat (constructor;
            [eexists; split; [reflexivity | split; vm_compute; reflexivity] |]).
    constructor.
  - eexists. split; [vm_compute; reflexivity |]. reflexivity.
Qed.

(** The laws of the addition, on the floats of these examples. *)
Lemma b64_add_on_examples :
  Forall (fun ab =>
            b64_add 0 (snd ab) == snd ab /\
            fst ab <= b64_add (fst ab) (snd ab) /\
            snd ab <= b64_add (fst ab) (snd ab))
         [ (2, b64 (1 # 100)); (1 # 2, b64 (7 # 100));
           (b64 (1 # 10), b64 (2 # 10)); (3 # 2, 1 # 2); (0, 1) ].
Proof.
  repeat constructor; vm_compute; first [reflexivity | discriminate].
Qed.

(** The sliver at x = 2.0 and a room that starts at x = 2.01 do not
    overlap for the code, and the sliver does not exceed the width 2.01;
    with exact sums both answers would be the opposite. *)
Lemma sliver_room_checks :
  _rooms_overlap b64_add sliver_room beside_sliver = false /\
  _has_overlap b64_add sliver_room [beside_sliver] = false /\
  _check_bounds b64_add sliver_space [sliver_room] = [] /\
  _rooms_overlap Qplus sliver_room beside_sliver = true /\
  _check_bounds Qplus sliver_space [sliver_room]
  = [ExceedsWidth "R4" (2 + b64 (1 # 100))
                  (Dimensions.width (Space.dimensions sliver_space))].
Proof.
  repeat split; vm_compute; reflexivity.
Qed.

(** *** The theorems at work *)

Lemma generate_layout_no_overlaps_witness :
  exists l,
    generate_layout Qplus no_pow demo_space (enough_fuel demo_space) = Ok l /\
    pairwise_disjoint Qplus (Layout.placed_rooms l) /\
    _check_overlaps Qplus (Layout.placed_rooms l) = [].
Proof.
  destruct (generate_layout_no_overlaps Qplus no_pow demo_space) as [Hret Hprop].
  destruct (Hret float_addition_exact demo_space_valid (List.Forall_nil _))
    as [l Hl].
  exists l. split; [exact Hl | exact (Hprop _ l Hl)].
Defined.

Lemma generate_layout_within_bounds_witness :
  (exists l,
      generate_layout Qplus no_pow demo_space (enough_fuel demo_space) = Ok l /\
      Forall (inside Qplus demo_space) (Layout.placed_rooms l) /\
      _check_bounds Qplus demo_space (Layout.placed_rooms l) = []) /\
  (exists l,
      generate_layout b64_add no_pow sliver_space 6 = Ok l /\
      Forall (inside b64_add sliver_space) (Layout.placed_rooms l) /\
      _check_bounds b64_add sliver_space (Layout.placed_rooms l) = []).
Proof.
  split.
  - destruct (generate_layout_within_bounds Qplus no_pow demo_space)
      as [Hret Hprop].
    destruct (Hret float_addition_exact demo_space_valid (List.Forall_nil _))
      as [l Hl].
    exists l. split; [exact Hl | exact (Hprop _ l Hl)].
  - destruct (generate_layout b64_add no_pow sliver_space 6) as [l| |] eqn:Hl;
      [| vm_compute in Hl; discriminate | vm_compute in Hl; discriminate].
    exists l. split; [reflexivity |].
    exact (proj2 (generate_layout_within_bounds b64_add no_pow sliver_space)
                 6%nat l Hl).
Defined.

Lemma generate_layout_copies_templates_witness :
  exists l,
    generate_layout Qplus no_pow demo_space (enough_fuel demo_space) = Ok l /\
    Forall (fun r => exists t, In t (Space.rooms demo_space) /\ placed_copy_of t r)
           (Layout.placed_rooms l) /\
    Layout.space l = demo_space /\
    Forall (fun t => Room.position t = None) (Space.rooms (Layout.space l)).
Proof.
  destruct (generate_layout_copies_templates Qplus no_pow demo_space)
    as [Hret Hprop].
  destruct (Hret float_addition_exact demo_space_valid (List.Forall_nil _))
    as [l Hl].
  destruct (Hprop _ l Hl) as (Hcopies & Hspace & Hnone).
  exists l. repeat split; try assumption.
  apply Hnone. repeat constructor.
Defined.

Lemma _find_best_position_earliest_maximum_witness :
  exists r,
    _find_best_position Qplus demo_space 22 bedroom [living_room_placed] = Ok r /\
    match r with
    | None => free_candidates Qplus demo_space bedroom [living_room_placed] = []
    | Some p =>
        In p (free_candidates Qplus demo_space bedroom [living_room_placed]) /\
        (forall c, In c (free_candidates Qplus demo_space bedroom
                                         [living_room_placed]) ->
                   _score_position c <= _score_position p) /\
        (exists before after,
            candidates Qplus demo_space bedroom = before ++ p :: after /\
            forall c, In c before ->
                      collision_free Qplus bedroom [living_room_placed] c = true ->
                      _score_position c < _score_position p) /\
        (forall q, first_free Qplus demo_space bedroom [living_room_placed]
                   = Some q ->
                   _score_position p <= _score_position q -> p = q)
    end.
Proof.
  apply (_find_best_position_earliest_maximum
           Qplus demo_space bedroom [living_room_placed] 22).
  - exact float_addition_exact.
  - split; reflexivity.
  - vm_compute. lia.
Defined.

Lemma generate_layout_priority_order_witness :
  exists l rest,
    generate_layout Qplus no_pow priority_space (enough_fuel priority_space)
      = Ok l /\
    Layout.placed_rooms l
    = with_position (Room.mk "a" "A" (Dimensions.mk 6 6) "general" None 10)
                    (Position.mk 0 0) :: rest /\
    (rest = [] \/
     exists p,
       rest = [with_position (Room.mk "b" "B" (Dimensions.mk 6 6) "general" None 1) p]
       /\ ~ Position.same p (Position.mk 0 0)).
Proof.
  destruct (generate_layout_priority_order Qplus no_pow priority_space)
    as (_ & _ & H).
  apply H.
  - exact float_addition_exact.
  - right. reflexivity.
  - simpl. lia.
  - split; reflexivity.
  - split; reflexivity.
  - simpl. discriminate.
  - simpl. discriminate.
  - constructor.
Defined.

Lemma generate_layout_deterministic_witness :
  exists l1 l2,
    generate_layout Qplus no_pow demo_space 16 = Ok l1 /\
    generate_layout Qplus no_pow demo_space 40 = Ok l2 /\
    map Room.position (Layout.placed_rooms l1)
      = map Room.position (Layout.placed_rooms l2) /\
    Layout.score l1 = Layout.score l2 /\
    Layout.violations l1 = Layout.violations l2 /\
    l1 = l2.
Proof.
  destruct (generate_layout Qplus no_pow demo_space 16) as [l1| |] eqn:H1;
    [| vm_compute in H1; discriminate | vm_compute in H1; discriminate].
  destruct (generate_layout Qplus no_pow demo_space 40) as [l2| |] eqn:H2;
    [| vm_compute in H2; discriminate | vm_compute in H2; discriminate].
  exists l1, l2. split; [reflexivity |]. split; [reflexivity |].
  exact (generate_layout_deterministic Qplus no_pow demo_space demo_space
           16 40 l1 l2 eq_refl H1 H2).
Defined.

Lemma overlap_test_half_open_witness :
  (_rooms_overlap Qplus left_room right_room = false /\
   _has_overlap Qplus left_room [right_room] = false) /\
  (_rooms_overlap b64_add sliver_room beside_sliver = false /\
   _has_overlap b64_add sliver_room [beside_sliver] = false).
Proof.
  split.
  - apply (overlap_test_half_open Qplus left_room right_room
             (Position.mk 0 0) (Position.mk 5 0) eq_refl eq_refl).
    left. reflexivity.
  - apply (overlap_test_half_open b64_add sliver_room beside_sliver
             (Position.mk 2 0) (Position.mk (b64 (201 # 100)) 0)
             eq_refl eq_refl).
    left. vm_compute. reflexivity.
Defined.

Lemma bounds_check_strict_witness :
  _check_bounds Qplus full_space [full_room] = [] /\
  _check_bounds b64_add sliver_space [sliver_room] = [].
Proof.
  split.
  - apply (bounds_check_strict Qplus full_space full_room (Position.mk 0 0)
             eq_refl);
      simpl; apply Qle_refl.
  - apply (bounds_check_strict b64_add sliver_space sliver_room
             (Position.mk 2 0) eq_refl);
      apply Qle_bool_imp_le; vm_compute; reflexivity.
Defined.


Lemma unrecognized_constraints_ignored_witness :
  validate_layout Qplus sqrt_floor zoned_space [near_room; far_room]
  = Ok (_check_bounds Qplus zoned_space [near_room; far_room]
        ++ _check_overlaps Qplus [near_room; far_room]).
Proof.
  apply (unrecognized_constraints_ignored Qplus sqrt_floor zoned_space
           [near_room; far_room]).
  repeat constructor.
Defined.

Lemma validate_layout_shape_witness :
  exists vs custom,
    validate_layout Qplus sqrt_floor constrained_space [near_room; far_room]
      = Ok vs /\
    vs = _check_bounds Qplus constrained_space [near_room; far_room]
         ++ _check_overlaps Qplus [near_room; far_room] ++ custom /\
    Forall is_custom custom /\
    (List.length custom <= 1)%nat.
Proof.
  destruct (validate_layout Qplus sqrt_floor constrained_space
              [near_room; far_room])
    as [vs| |] eqn:Hvs;
    [| vm_compute in Hvs; discriminate | vm_compute in Hvs; discriminate].
  destruct (validate_layout_shape Qplus sqrt_floor constrained_space
              [near_room; far_room] vs Hvs) as (custom & H1 & H2 & H3).
  exists vs, custom. repeat split; assumption.
Defined.

Lemma _calculate_distance_sym_witness :
  exists d12 d21,
    _calculate_distance sqrt_floor near_room far_room = Fin d12 /\
    _calculate_distance sqrt_floor far_room near_room = Fin d21 /\
    d12 == d21 /\
    forall bound,
      xlt (Fin d12) bound = xlt (Fin d21) bound /\
      xgt (Fin d12) bound = xgt (Fin d21) bound.
Proof.
  exact (_calculate_distance_sym sqrt_floor near_room far_room
           sqrt_floor_proper eq_refl eq_refl).
Defined.

Lemma min_distance_default_is_vacuous_witness :
  _check_min_distance sqrt_floor [near_room; far_room] bare_constraint = Ok [].
Proof.
  apply (min_distance_default_is_vacuous sqrt_floor [near_room; far_room]
           bare_constraint sqrt_floor_nonneg).
  reflexivity.
Defined.

Lemma generate_layout_violations_custom_witness :
  exists l,
    generate_layout Qplus no_pow demo_space 16 = Ok l /\
    Layout.violations l = [] /\ Layout.is_valid l = true.
Proof.
  destruct (generate_layout Qplus no_pow demo_space 16) as [l| |] eqn:Hl;
    [| vm_compute in Hl; discriminate | vm_compute in Hl; discriminate].
  exists l. split; [reflexivity |].
  exact (proj2 (proj2 (generate_layout_violations_custom
                         Qplus no_pow demo_space 16 l Hl)) eq_refl).
Defined.

Lemma generate_layout_metadata_consistent_witness :
  exists l,
    generate_layout Qplus no_pow tight_space 10 = Ok l /\
    (List.length (Layout.placed_rooms l) <= 2)%nat /\
    Layout.metadata l !! "placement_rate"
      = Some (ANum (placement_ratio tight_space (Layout.placed_rooms l))).
Proof.
  destruct (generate_layout Qplus no_pow tight_space 10) as [l| |] eqn:Hl;
    [| vm_compute in Hl; discriminate | vm_compute in Hl; discriminate].
  exists l. split; [reflexivity |].
  destruct (generate_layout_metadata_consistent Qplus no_pow tight_space 10 l Hl)
    as (Hlen & _ & _ & Hrate & _).
  split; assumption.
Defined.

Lemma generate_layout_score_bounds_witness :
  exists l,
    generate_layout Qplus no_pow demo_space 16 = Ok l /\
    Layout.score l <= 130.
Proof.
  destruct (generate_layout Qplus no_pow demo_space 16) as [l| |] eqn:Hl;
    [| vm_compute in Hl; discriminate | vm_compute in Hl; discriminate].
  exists l. split; [reflexivity |].
  exact (proj2 (proj2 (generate_layout_score_bounds
                         Qplus no_pow demo_space 16 l
                         float_addition_exact demo_space_valid Hl))).
Defined.

Lemma generate_layout_no_rooms_witness :
  exists l,
    generate_layout Qplus sqrt_floor empty_space 0 = Ok l /\
    Layout.placed_rooms l = [] /\
    Layout.violations l = [] /\
    Layout.is_valid l = true /\
    Layout.score l == 0 /\
    Layout.metadata l !! "placement_rate" = Some (ANum 0).
Proof.
  exact (generate_layout_no_rooms Qplus sqrt_floor empty_space 0 eq_refl).
Defined.

Lemma oversized_rooms_never_placed_witness :
  exists l,
    generate_layout Qplus no_pow tight_space 10 = Ok l /\
    Forall (fits tight_space) (Layout.placed_rooms l).
Proof.
  destruct (generate_layout Qplus no_pow tight_space 10) as [l| |] eqn:Hl;
    [| vm_compute in Hl; discriminate | vm_compute in Hl; discriminate].
  exists l. split; [reflexivity |].
  exact (proj1 (oversized_rooms_never_placed Qplus no_pow tight_space 10 l
                  float_addition_exact Hl)).
Defined.

Lemma placed_rooms_on_grid_witness :
  exists l,
    generate_layout b64_add no_pow sliver_space 6 = Ok l /\
    Forall (fun r => exists p, Room.position r = Some p /\
                               on_grid (Position.x p) /\ on_grid (Position.y p))
           (Layout.placed_rooms l).
Proof.
  destruct (generate_layout b64_add no_pow sliver_space 6) as [l| |] eqn:Hl;
    [| vm_compute in Hl; discriminate | vm_compute in Hl; discriminate].
  exists l. split; [reflexivity |].
  exact (placed_rooms_on_grid b64_add no_pow sliver_space 6 l Hl).
Defined.

Lemma first_room_goes_to_origin_witness :
  exists l others,
    generate_layout Qplus no_pow demo_space 16 = Ok l /\
    Layout.placed_rooms l
    = with_position (Room.mk "room_0" "Living Room" (Dimensions.mk 5 4)
                             "general" None 9) (Position.mk 0 0) :: others.
Proof.
  destruct (generate_layout Qplus no_pow demo_space 16) as [l| |] eqn:Hl;
    [| vm_compute in Hl; discriminate | vm_compute in Hl; discriminate].
  destruct (first_room_goes_to_origin Qplus no_pow demo_space 16 l _ _
              (proj1 float_addition_exact) eq_refl)
    as [others Hothers].
  - repeat constructor; simpl; lia.
  - split; simpl; discriminate.
  - exact Hl.
  - exists l, others. split; [reflexivity | exact Hothers].
Defined.

Lemma descending_rooms_keep_their_order_witness :
  exists l,
    generate_layout Qplus no_pow demo_space 16 = Ok l /\
    sorted_desc Room.priority (Space.rooms demo_space) = Space.rooms demo_space /\
    place_rooms Qplus demo_space 16 (Space.rooms demo_space) []
    = Ok (Layout.placed_rooms l).
Proof.
  destruct (generate_layout Qplus no_pow demo_space 16) as [l| |] eqn:Hl;
    [| vm_compute in Hl; discriminate | vm_compute in Hl; discriminate].
  exists l. split; [reflexivity |].
  apply (descending_rooms_keep_their_order Qplus no_pow demo_space 16 l);
    [| exact Hl].
  repeat constructor; simpl; lia.
Defined.

Lemma placed_rooms_valid_witness :
  exists l,
    generate_layout Qplus no_pow demo_space 16 = Ok l /\
    Forall Room.valid (Layout.placed_rooms l).
Proof.
  destruct (generate_layout Qplus no_pow demo_space 16) as [l| |] eqn:Hl;
    [| vm_compute in Hl; discriminate | vm_compute in Hl; discriminate].
  exists l. split; [reflexivity |].
  apply (placed_rooms_valid Qplus no_pow demo_space 16 l); [| exact Hl].
  repeat constructor; simpl; lia.
Defined.

Lemma agent_generate_layout_state_witness :
  exists layout self',
    SpatialPlanningAgent.generate_layout
      Qplus no_pow 16 SpatialPlanningAgent.init (Some demo_space)
    = (Returned layout, self') /\
    SpatialPlanningAgent.generate_layout Qplus no_pow 16 self' None
    = (ValueError, self') /\
    SpatialPlanningAgent.current_layout self' = Some layout.
Proof.
  pose proof (agent_generate_layout_state
                Qplus no_pow 16 SpatialPlanningAgent.init (Some demo_space)) as H.
  destruct (SpatialPlanningAgent.generate_layout
              Qplus no_pow 16 SpatialPlanningAgent.init (Some demo_space))
    as [outcome self'] eqn:Hcall.
  destruct outcome as [layout| | |];
    try (vm_compute in Hcall; discriminate).
  exists layout, self'. split; [reflexivity |].
  destruct H as (_ & _ & _ & Hfresh).
  exact (Hfresh eq_refl layout eq_refl).
Defined.
